(** * tangled: dependency graph model and renderers

    A shallow embedding of [types.go] and [renderer.go] of the
    [scottbrown/tangled] repository, and the properties of the graph store
    and of the four render strategies.

    Conventions of the embedding.
    - A Go [string] is a byte sequence: [string] of the Standard Library,
      compared with [String.ltb] (byte-wise lexicographic, as Go's [<]).
    - A Go [map[string]V] is a [gmap string V].  Ranging over a Go map visits
      every entry once in an unspecified order: the visiting order is an
      explicit argument of the model, constrained by [range_order].
    - A method with a pointer receiver that mutates the graph returns the
      new graph.
    - An [io.Writer] is an abstract state with a [Write] operation that may
      fail. *)

From Stdlib Require Import String Ascii List DecimalString.
From Stdlib Require DecimalNat.
From stdpp Require Import gmap strings list sorting.

Local Open Scope string_scope.
Local Open Scope list_scope.

(** ** Go's [strings] and [fmt] helpers *)

Module GoStrings.

(** The double quote, the newline and the backslash as one-byte strings. *)
Definition dq : string := String "034"%char EmptyString.
Definition nl : string := String "010"%char EmptyString.
Definition bs : string := String "092"%char EmptyString.

(** [strings.ReplaceAll(s, old, new)] for a non-empty [old]: the
    non-overlapping occurrences of [old] are replaced from left to right.
    [skip] counts the bytes of a matched occurrence still to be dropped.
    Every call site in the renderers passes a non-empty literal as [old];
    the empty pattern is outside the model. *)
Fixpoint replaceAll_from (old new : string) (skip : nat) (s : string) : string :=
  match s with
  | EmptyString => EmptyString
  | String c s' =>
      match skip with
      | S k => replaceAll_from old new k s'
      | O =>
          if String.prefix old s
          then new +:+ replaceAll_from old new (String.length old - 1) s'
          else String c (replaceAll_from old new 0 s')
      end
  end.

Definition ReplaceAll (s old new : string) : string :=
  replaceAll_from old new 0 s.

(** [strings.Join(elems, sep)]. *)
Fixpoint Join (elems : list string) (sep : string) : string :=
  match elems with
  | [] => EmptyString
  | [e] => e
  | e :: rest => e +:+ sep +:+ Join rest sep
  end.

(** The verb [%d] of [fmt.Sprintf] on a non-negative [int]. *)
Definition itoa (n : nat) : string := NilZero.string_of_uint (Nat.to_uint n).

(** Byte-wise map over a string. *)
Fixpoint map_bytes (f : ascii -> ascii) (s : string) : string :=
  match s with
  | EmptyString => EmptyString
  | String c s' => String (f c) (map_bytes f s')
  end.

End GoStrings.

Import GoStrings.

(** ** Go's [sort] package *)

Module GoSort.

Section Sort.
Context {A : Type} (less : A -> A -> bool).

(** One step of insertion sort: [x] goes in front of the first element
    it is less than. *)
Fixpoint insert_sorted (x : A) (l : list A) : list A :=
  match l with
  | [] => [x]
  | y :: l' => if less x y then x :: y :: l' else y :: insert_sorted x l'
  end.

(** [sort.Slice(x, less)].  Go does not promise stability; the model is
    an insertion sort, and [sorted_by_unique] below shows that on
    pairwise distinguishable elements every sorting algorithm returns
    the same sequence. *)
Definition Slice (l : list A) : list A :=
  fold_left (fun acc x => insert_sorted x acc) l [].

(** What [sort.Slice] promises: no element is less than an earlier one. *)
Definition sorted_by (l : list A) : Prop :=
  StronglySorted (fun x y => less y x = false) l.
End Sort.

(** [sort.Strings]. *)
Definition Strings (l : list string) : list string := Slice String.ltb l.

End GoSort.

(** ** types.go *)

Record GoModule := mkModule { Path : string; Version : string }.

Definition Module_String (m : GoModule) : string :=
  if decide (Version m = EmptyString) then Path m
  else Path m +:+ "@" +:+ Version m.

Record Dependency := mkDependency { From_ : GoModule; To : GoModule }.

Record DependencyGraph := mkGraph {
  MainModule : GoModule;
  Dependencies : list Dependency;
  tree : gmap string (list string)
}.

Definition NewDependencyGraph (mainModule : GoModule) : DependencyGraph :=
  {| MainModule := mainModule; Dependencies := []; tree := ∅ |}.

Definition AddDependency (dg : DependencyGraph) (from to : GoModule) : DependencyGraph :=
  {| MainModule := MainModule dg;
     Dependencies := Dependencies dg ++ [mkDependency from to];
     tree := ∅ |}.

Definition GetDirectDependencies (dg : DependencyGraph) (module : GoModule) : list GoModule :=
  let moduleStr := Module_String module in
  fold_left
    (fun deps dep =>
       if String.eqb (Module_String (From_ dep)) moduleStr
       then deps ++ [To dep] else deps)
    (Dependencies dg) [].

(** Ranging over a Go map: [order] is a possible visiting order of the
    entries of [m]. *)
Definition range_order {V : Type} (m : gmap string V) (order : list (string * V)) : Prop :=
  order ≡ₚ map_to_list m.

(** One round of the first loop of [GetAllModules]. *)
Definition moduleSet_step (ms : gmap string GoModule) (dep : Dependency) : gmap string GoModule :=
  <[Module_String (To dep) := To dep]> (<[Module_String (From_ dep) := From_ dep]> ms).

(** The [moduleSet] local of [GetAllModules] once its first loop is over. *)
Definition moduleSet (dg : DependencyGraph) : gmap string GoModule :=
  fold_left moduleSet_step (Dependencies dg)
    (<[Module_String (MainModule dg) := MainModule dg]> ∅).

(** The comparison handed to [sort.Slice] by [GetAllModules]. *)
Definition module_less (a b : GoModule) : bool :=
  String.ltb (Module_String a) (Module_String b).

(** [GetAllModules] when the range over [moduleSet] visits the entries in
    the order [order]. *)
Definition GetAllModules_ranged (dg : DependencyGraph)
    (order : list (string * GoModule)) : list GoModule :=
  let modules := fold_left (fun modules kv => modules ++ [kv.2]) order [] in
  GoSort.Slice module_less modules.

(** [GetAllModules]: by [GetAllModules_order_irrelevant] below the visiting
    order of the map does not show in the result, so one order stands for
    all of them. *)
Definition GetAllModules (dg : DependencyGraph) : list GoModule :=
  GetAllModules_ranged dg (map_to_list (moduleSet dg)).

(** The single pass of [buildTree] over the dependency sequence, starting
    from the map [t]. *)
Definition buildTree_loop (deps : list Dependency) (t : gmap string (list string))
    : gmap string (list string) :=
  fold_left
    (fun t dep =>
       let fromStr := Module_String (From_ dep) in
       let toStr := Module_String (To dep) in
       <[fromStr := default [] (t !! fromStr) ++ [toStr]]> t)
    deps t.

Definition buildTree (dg : DependencyGraph) : DependencyGraph :=
  if decide (0 < size (tree dg)) then dg
  else {| MainModule := MainModule dg;
          Dependencies := Dependencies dg;
          tree := buildTree_loop (Dependencies dg) (tree dg) |}.

(** [GetTree] returns the cached map and leaves the graph with the cache
    built. *)
Definition GetTree (dg : DependencyGraph) : gmap string (list string) * DependencyGraph :=
  let dg' := buildTree dg in (tree dg', dg').

(** ** renderer.go *)

Module Renderer.

Section Writer.
(** The [io.Writer] handed to [Render]: its state, its errors, and one
    call of its [Write] method.  [fmt.Fprintf] and [fmt.Fprintln] format
    their text and hand it to the writer in one [Write]. *)
Context {W E : Type} (Write : W -> string -> W * option E).

(** [if err != nil { return err }] after a step. *)
Definition and_then (r : W * option E) (k : W -> W * option E) : W * option E :=
  match r with
  | (w, Some err) => (w, Some err)
  | (w, None) => k w
  end.

(** A loop that prints one text per element and returns at the first
    error. *)
Fixpoint write_each (texts : list string) (writer : W) : W * option E :=
  match texts with
  | [] => (writer, None)
  | text :: rest => and_then (Write writer text) (write_each rest)
  end.

(** *** PlaintextRenderer *)

(** The state a call of [renderNode] works on: the graph behind the
    pointer, the [visited] map, and the writer. *)
Definition PState : Type := DependencyGraph * gset string * W.

(** [dependencies := tree[nodeKey]; sort.Strings(dependencies)]: the
    slice shares its array with the entry of the map, so the entry is
    sorted in place.  A missing key yields the nil slice and leaves the
    map alone. *)
Definition sort_entry (t : gmap string (list string)) (nodeKey : string)
    : list string * gmap string (list string) :=
  match t !! nodeKey with
  | Some deps => let sorted := GoSort.Strings deps in (sorted, <[nodeKey := sorted]> t)
  | None => ([], t)
  end.

(** [for i, dep := range dependencies { err := body(i, dep); ... }]. *)
Fixpoint range_children (body : nat -> string -> PState -> option (PState * option E))
    (i : nat) (dependencies : list string) (st : PState) : option (PState * option E) :=
  match dependencies with
  | [] => Some (st, None)
  | dep :: rest =>
      match body i dep st with
      | None => None
      | Some (st', Some err) => Some (st', Some err)
      | Some (st', None) => range_children body (S i) rest st'
      end
  end.

Definition connector_of (prefix : string) (isLast : bool) : string :=
  if decide (prefix = "") then ""
  else if isLast then "└── " else "├── ".

Definition newPrefix_of (prefix : string) (isLast : bool) : string :=
  if decide (prefix = "") then "  "
  else if isLast then prefix +:+ "    " else prefix +:+ "│   ".

(** [renderNode].  The recursion of the source is not structural; [fuel]
    bounds its depth and [None] means the bound was too small
    ([renderNode_total] shows which bound always suffices).  The loop
    ranges over the sorted slice: no call below it touches the entry of
    a node that is already in [visited]. *)
Fixpoint renderNode (fuel : nat) (nodeKey prefix : string) (isLast : bool)
    (st : PState) : option (PState * option E) :=
  match fuel with
  | O => None
  | S fuel' =>
      let '(graph, visited, writer) := st in
      let connector := connector_of prefix isLast in
      match Write writer (prefix +:+ connector +:+ nodeKey +:+ nl) with
      | (writer1, Some err) => Some ((graph, visited, writer1), Some err)
      | (writer1, None) =>
          if decide (nodeKey ∈ visited) then Some ((graph, visited, writer1), None)
          else
            let visited1 := {[nodeKey]} ∪ visited in
            let '(t, graph1) := GetTree graph in
            let '(dependencies, t') := sort_entry t nodeKey in
            let graph2 := {| MainModule := MainModule graph1;
                             Dependencies := Dependencies graph1;
                             tree := t' |} in
            let newPrefix := newPrefix_of prefix isLast in
            range_children
              (fun i dep =>
                 renderNode fuel' dep newPrefix (Nat.eqb i (length dependencies - 1)))
              0 dependencies (graph2, visited1, writer1)
      end
  end.

(** [PlaintextRenderer.Render] with the recursion bounded by [fuel]. *)
Definition PlaintextRender_fuel (fuel : nat) (graph : DependencyGraph) (writer : W)
    : option (PState * option E) :=
  renderNode fuel (Module_String (MainModule graph)) "" true (graph, ∅, writer).

(** A depth no traversal of [graph] exceeds. *)
Definition depth_bound (graph : DependencyGraph) : nat :=
  S (size (tree (buildTree graph))).

(** [PlaintextRenderer.Render]: the graph it leaves behind, the writer
    and the error. *)
Definition PlaintextRender (graph : DependencyGraph) (writer : W)
    : option (DependencyGraph * W * option E) :=
  match PlaintextRender_fuel (depth_bound graph) graph writer with
  | Some ((graph', _, writer'), err) => Some (graph', writer', err)
  | None => None
  end.

(** *** MermaidRenderer *)

(** One round of the loop that fills [nodeIDs]: the map and [idCounter]. *)
Definition nodeID_step (acc : gmap string string * nat) (module : GoModule)
    : gmap string string * nat :=
  (<[Module_String module := "N" +:+ itoa acc.2]> acc.1, S acc.2).

(** The [nodeIDs] map once the first loop of [Render] is over. *)
Definition Mermaid_nodeIDs (graph : DependencyGraph) : gmap string string :=
  (fold_left nodeID_step (GetAllModules graph) (∅, 1)).1.

Definition Mermaid_node_line (kv : string * string) : string :=
  let '(moduleStr, nodeID) := kv in
  let escapedLabel := ReplaceAll moduleStr dq (bs +:+ dq) in
  "    " +:+ nodeID +:+ "[" +:+ dq +:+ escapedLabel +:+ dq +:+ "]" +:+ nl.

Definition Mermaid_edge_line (nodeIDs : gmap string string) (dep : Dependency) : string :=
  let fromID := default "" (nodeIDs !! Module_String (From_ dep)) in
  let toID := default "" (nodeIDs !! Module_String (To dep)) in
  "    " +:+ fromID +:+ " --> " +:+ toID +:+ nl.

(** [MermaidRenderer.Render] when the range over [nodeIDs] visits the
    entries in the order [order]. *)
Definition MermaidRender_ranged (order : list (string * string))
    (graph : DependencyGraph) (writer : W) : W * option E :=
  and_then (Write writer ("graph TD" +:+ nl)) (fun writer =>
  let nodeIDs := Mermaid_nodeIDs graph in
  and_then (write_each (Mermaid_node_line <$> order) writer) (fun writer =>
  write_each (Mermaid_edge_line nodeIDs <$> Dependencies graph) writer)).

(** The runs of [MermaidRenderer.Render] on [graph]: one for each
    visiting order of [nodeIDs]. *)
Definition MermaidRender (graph : DependencyGraph) (writer : W)
    (result : W * option E) : Prop :=
  exists order, range_order (Mermaid_nodeIDs graph) order /\
                result = MermaidRender_ranged order graph writer.

(** *** GraphvizRenderer *)

Definition sanitizeNodeID (nodeID : string) : string :=
  let sanitized := ReplaceAll nodeID "/" "_" in
  let sanitized := ReplaceAll sanitized "." "_" in
  let sanitized := ReplaceAll sanitized "@" "_" in
  let sanitized := ReplaceAll sanitized "-" "_" in
  sanitized.

(** The two format strings of the node declarations. *)
Definition Graphviz_highlighted (nodeID escapedLabel : string) : string :=
  "    " +:+ dq +:+ nodeID +:+ dq +:+ " [label=" +:+ dq +:+ escapedLabel +:+ dq
    +:+ ", fillcolor=lightblue, style=" +:+ dq +:+ "rounded,filled" +:+ dq +:+ "];" +:+ nl.

Definition Graphviz_plain (nodeID escapedLabel : string) : string :=
  "    " +:+ dq +:+ nodeID +:+ dq +:+ " [label=" +:+ dq +:+ escapedLabel +:+ dq +:+ "];" +:+ nl.

Definition Graphviz_node_line (graph : DependencyGraph) (module : GoModule) : string :=
  let moduleStr := Module_String module in
  let escapedLabel := ReplaceAll moduleStr dq (bs +:+ dq) in
  let nodeID := sanitizeNodeID moduleStr in
  if String.eqb moduleStr (Module_String (MainModule graph))
  then Graphviz_highlighted nodeID escapedLabel
  else Graphviz_plain nodeID escapedLabel.

Definition Graphviz_edge_line (dep : Dependency) : string :=
  let fromID := sanitizeNodeID (Module_String (From_ dep)) in
  let toID := sanitizeNodeID (Module_String (To dep)) in
  "    " +:+ dq +:+ fromID +:+ dq +:+ " -> " +:+ dq +:+ toID +:+ dq +:+ ";" +:+ nl.

Definition GraphvizRender (graph : DependencyGraph) (writer : W) : W * option E :=
  and_then (Write writer ("digraph dependencies {" +:+ nl)) (fun writer =>
  and_then (Write writer ("    rankdir=LR;" +:+ nl)) (fun writer =>
  and_then (Write writer ("    node [shape=box, style=rounded];" +:+ nl)) (fun writer =>
  let modules := GetAllModules graph in
  and_then (write_each (Graphviz_node_line graph <$> modules) writer) (fun writer =>
  and_then (write_each (Graphviz_edge_line <$> Dependencies graph) writer) (fun writer =>
  Write writer ("}" +:+ nl)))))).

(** *** HTMLRenderer *)

(** One entry of the node fragment. *)
Definition HTML_node (graph : DependencyGraph) (i : nat) (module : GoModule) : string :=
  let moduleStr := Module_String module in
  let escapedLabel := ReplaceAll moduleStr dq (bs +:+ dq) in
  let escapedLabel := ReplaceAll escapedLabel bs (bs +:+ bs) in
  let group := if String.eqb moduleStr (Module_String (MainModule graph)) then 2 else 1 in
  "{" +:+ dq +:+ "id" +:+ dq +:+ ": " +:+ itoa i +:+ ", "
    +:+ dq +:+ "name" +:+ dq +:+ ": " +:+ dq +:+ escapedLabel +:+ dq +:+ ", "
    +:+ dq +:+ "group" +:+ dq +:+ ": " +:+ itoa group +:+ "}".

(** The [nodes] slice of [generateNodes] once its loop is over. *)
Definition generateNodes_entries (graph : DependencyGraph) : list string :=
  imap (HTML_node graph) (GetAllModules graph).

Definition fragment_sep : string := "," +:+ nl +:+ "        ".

Definition generateNodes (graph : DependencyGraph) : string :=
  "[" +:+ Join (generateNodes_entries graph) fragment_sep +:+ "]".

(** One round of the loop that fills [moduleToIndex]: the map and the
    index [i] of the range. *)
Definition index_step (acc : gmap string nat * nat) (module : GoModule)
    : gmap string nat * nat :=
  (<[Module_String module := acc.2]> acc.1, S acc.2).

(** The [moduleToIndex] map of [generateLinks]. *)
Definition moduleToIndex (graph : DependencyGraph) : gmap string nat :=
  (fold_left index_step (GetAllModules graph) (∅, 0)).1.

Definition HTML_link (fromIndex toIndex : nat) : string :=
  "{" +:+ dq +:+ "source" +:+ dq +:+ ": " +:+ itoa fromIndex +:+ ", "
    +:+ dq +:+ "target" +:+ dq +:+ ": " +:+ itoa toIndex +:+ "}".

(** The indices [generateLinks] reads for one edge; a missing key of a
    Go map reads as zero. *)
Definition link_indices (graph : DependencyGraph) (dep : Dependency) : nat * nat :=
  let idx := moduleToIndex graph in
  (default 0 (idx !! Module_String (From_ dep)),
   default 0 (idx !! Module_String (To dep))).

(** The [links] slice of [generateLinks] once its loop is over. *)
Definition generateLinks_entries (graph : DependencyGraph) : list string :=
  (fun dep => HTML_link (link_indices graph dep).1 (link_indices graph dep).2)
    <$> Dependencies graph.

Definition generateLinks (graph : DependencyGraph) : string :=
  "[" +:+ Join (generateLinks_entries graph) fragment_sep +:+ "]".

(** [HTMLRenderer.Render]; [template] is the document returned by
    [getHTMLTemplate], a constant of several hundred lines that the
    properties below do not depend on. *)
Definition HTMLRender (template : string) (graph : DependencyGraph) (writer : W)
    : W * option E :=
  let nodes := generateNodes graph in
  let links := generateLinks graph in
  let html := ReplaceAll template "{{NODES}}" nodes in
  let html := ReplaceAll html "{{LINKS}}" links in
  Write writer html.

End Writer.

(** A writer that keeps what it is given and never fails, as the
    [bytes.Buffer] of the tests. *)
Definition Buffer_Write (buf : list string) (text : string) : list string * option Empty_set :=
  (buf ++ [text], None).

End Renderer.

(** ** The graph store in the words of the specification *)

(** The root, and every [from] and [to] of the dependency sequence. *)
Definition graphModules (dg : DependencyGraph) : list GoModule :=
  MainModule dg :: flat_map (fun dep => [From_ dep; To dep]) (Dependencies dg).

(** The modules of [l] with the canonical string [k]. *)
Definition with_key (k : string) (l : list GoModule) : list GoModule :=
  filter (fun m => Module_String m = k) l.

(** The edges of [deps] whose [from] has the canonical string [k], in
    insertion order. *)
Definition edges_from (k : string) (deps : list Dependency) : list Dependency :=
  filter (fun dep => Module_String (From_ dep) = k) deps.

(** [directDependenciesOf]: all [to] values where [from] matches by
    canonical string, in insertion order. *)
Definition directDependenciesOf (dg : DependencyGraph) (module : GoModule) : list GoModule :=
  To <$> edges_from (Module_String module) (Dependencies dg).

(** The adjacency index of a dependency sequence: the canonical string of
    each [from] is mapped to the canonical strings of its [to] modules in
    insertion order. *)
Definition adjacency_list (k : string) (deps : list Dependency) : list string :=
  (fun dep => Module_String (To dep)) <$> edges_from k deps.

Definition adjacency (deps : list Dependency) : gmap string (list string) :=
  list_to_map
    ((fun dep => let k := Module_String (From_ dep) in (k, adjacency_list k deps)) <$> deps).

(** The calls a client makes on a graph store between two renders. *)
Inductive store_call : Type :=
  | CallAddDependency (from to : GoModule)
  | CallGetTree.

Definition run_call (dg : DependencyGraph) (c : store_call) : DependencyGraph :=
  match c with
  | CallAddDependency from to => AddDependency dg from to
  | CallGetTree => (GetTree dg).2
  end.

Definition run_calls (calls : list store_call) (dg : DependencyGraph) : DependencyGraph :=
  fold_left run_call calls dg.

(** The edges a sequence of calls adds, in call order. *)
Definition added_edges (calls : list store_call) : list Dependency :=
  flat_map (fun c => match c with
                     | CallAddDependency from to => [mkDependency from to]
                     | CallGetTree => []
                     end) calls.

(** The cache of a graph is usable: it is empty, or it is the adjacency
    index of the current dependency sequence. *)
Definition cache_ok (dg : DependencyGraph) : Prop :=
  tree dg = ∅ \/ tree dg = adjacency (Dependencies dg).

(** ** Graphs used as examples *)

(** [createTestGraph] of renderer_test.go. *)
Definition createTestGraph : DependencyGraph :=
  let mainModule := mkModule "github.com/example/main" "" in
  let graph := NewDependencyGraph mainModule in
  let dep1 := mkModule "github.com/dep1" "v1.0.0" in
  let dep2 := mkModule "github.com/dep2" "v2.0.0" in
  let subdep := mkModule "github.com/subdep" "v1.0.0" in
  let graph := AddDependency graph mainModule dep1 in
  let graph := AddDependency graph mainModule dep2 in
  AddDependency graph dep1 subdep.

(** Two modules that differ in both fields and share a canonical string,
    each the [from] of one edge. *)
Definition alias_graph : DependencyGraph :=
  let graph := NewDependencyGraph (mkModule "a@b" "") in
  let graph := AddDependency graph (mkModule "a@b" "") (mkModule "x" "") in
  AddDependency graph (mkModule "a" "b") (mkModule "y" "").

(** A root whose path holds a double quote. *)
Definition quoted_graph : DependencyGraph :=
  NewDependencyGraph (mkModule ("a" +:+ dq +:+ "b") "").

(** One edge between two modules. *)
Definition two_module_graph : DependencyGraph :=
  AddDependency (NewDependencyGraph (mkModule "a" "")) (mkModule "a" "") (mkModule "b" "").

(** A root whose edges were added out of alphabetical order. *)
Definition unsorted_graph : DependencyGraph :=
  let graph := NewDependencyGraph (mkModule "r" "") in
  let graph := AddDependency graph (mkModule "r" "") (mkModule "b" "") in
  AddDependency graph (mkModule "r" "") (mkModule "a" "").

(** The nodes with an entry in the adjacency index that a traversal has not
    expanded yet: what bounds the depth of [renderNode]. *)
Definition unvisited (graph : DependencyGraph) (visited : gset string) : nat :=
  size (dom (tree (buildTree graph)) ∖ visited).

(** What a call of [renderNode] may do to the graph and to [visited]: the
    visited set grows and the index keeps its keys. *)
Definition traversal_step {W : Type} (st st' : Renderer.PState (W := W)) : Prop :=
  st.1.2 ⊆ st'.1.2
  /\ dom (tree (buildTree st'.1.1)) = dom (tree (buildTree st.1.1)).

(** A cycle between the root and one of its two dependencies. *)
Definition cyclic_graph : DependencyGraph :=
  let graph := NewDependencyGraph (mkModule "a" "") in
  let graph := AddDependency graph (mkModule "a" "") (mkModule "c" "") in
  let graph := AddDependency graph (mkModule "a" "") (mkModule "b" "") in
  AddDependency graph (mkModule "b" "") (mkModule "a" "").

(** ** The graph-description renderer in the words of the specification *)

(** What happens to one byte of a node identifier: the slash, the dot, the
    at sign and the hyphen become an underscore. *)
Definition sanitize_byte (c : ascii) : ascii :=
  if (Ascii.eqb c "/" || Ascii.eqb c "." || Ascii.eqb c "@" || Ascii.eqb c "-")%bool
  then "_"%char else c.

(** The texts [GraphvizRenderer.Render] writes, in order. *)
Definition Graphviz_lines (graph : DependencyGraph) : list string :=
  ["digraph dependencies {" +:+ nl;
   "    rankdir=LR;" +:+ nl;
   "    node [shape=box, style=rounded];" +:+ nl]
  ++ (Renderer.Graphviz_node_line graph <$> GetAllModules graph)
  ++ (Renderer.Graphviz_edge_line <$> Dependencies graph)
  ++ ["}" +:+ nl].

(** The attributes that highlight a node, up to the end of its line. *)
Definition highlight_attrs : string :=
  ", fillcolor=lightblue, style=" +:+ dq +:+ "rounded,filled" +:+ dq +:+ "];" +:+ nl.

(** A declaration line carries the highlighting attributes. *)
Definition carries_highlight (line : string) : Prop :=
  exists front, line = front +:+ highlight_attrs.

(** ** Escaping, byte by byte *)

(** Every byte of [s] replaced by a string. *)
Fixpoint expand_bytes (f : ascii -> string) (s : string) : string :=
  match s with
  | EmptyString => EmptyString
  | String c s' => f c +:+ expand_bytes f s'
  end.

(** What the two replacements of [generateNodes] make of one byte of a
    name: a double quote becomes backslash, backslash, quote; a backslash
    becomes two backslashes. *)
Definition html_name_byte (c : ascii) : string :=
  if Ascii.eqb c "034" then bs +:+ bs +:+ dq
  else if Ascii.eqb c "092" then bs +:+ bs
  else String c EmptyString.

(** The byte [c] occurs in [s]. *)
Definition has_byte (c : ascii) (s : string) : Prop := c ∈ list_ascii_of_string s.

(** ** Observing a writer *)

(** The writer [Write] with a record of every text handed to it, whether
    the write succeeds or fails. *)
Definition Logged_Write {W E : Type} (Write : W -> string -> W * option E)
    (st : W * list string) (text : string) : (W * list string) * option E :=
  (((Write st.1 text).1, st.2 ++ [text]), (Write st.1 text).2).

(** The texts [MermaidRenderer.Render] writes when the range over [nodeIDs]
    takes the order [order]. *)
Definition Mermaid_lines (order : list (string * string)) (graph : DependencyGraph)
    : list string :=
  ("graph TD" +:+ nl)
  :: (Renderer.Mermaid_node_line <$> order)
  ++ (Renderer.Mermaid_edge_line (Renderer.Mermaid_nodeIDs graph) <$> Dependencies graph).

(** ** The cache up to the order of its lists *)

(** Two adjacency maps with the same keys whose lists hold the same
    strings, each as often, in any order. *)
Definition tree_equiv (t1 t2 : gmap string (list string)) : Prop :=
  forall k, option_Forall2 Permutation (t1 !! k) (t2 !! k).

(** The cache of a graph, once built, is the adjacency index of its edges
    up to the order of the lists: the state of a graph between calls of
    [AddDependency], [GetTree] and [Render]. *)
Definition cache_consistent (g : DependencyGraph) : Prop :=
  tree_equiv (tree (buildTree g)) (adjacency (Dependencies g)).

(** Two states of [renderNode] that differ at most in the order of the
    cached lists. *)
Definition same_cache {W : Type} (st1 st2 : Renderer.PState (W := W)) : Prop :=
  st1.1.2 = st2.1.2 /\ st1.2 = st2.2
  /\ tree_equiv (tree (buildTree st1.1.1)) (tree (buildTree st2.1.1)).

(** Two results of [renderNode] with the same writer, the same error and
    the same visited set. *)
Definition same_result {W E : Type}
    (r1 r2 : option (Renderer.PState (W := W) * option E)) : Prop :=
  match r1, r2 with
  | Some (st1, e1), Some (st2, e2) => same_cache st1 st2 /\ e1 = e2
  | None, None => True
  | _, _ => False
  end.

(** ** The traversal of the plaintext renderer *)

(** The graph has an edge from the canonical string [a] to the canonical
    string [b]. *)
Definition edge (deps : list Dependency) (a b : string) : Prop :=
  exists dep, dep ∈ deps /\ Module_String (From_ dep) = a /\ Module_String (To dep) = b.

(** The edges whose [from] is not visited yet. *)
Definition pending (deps : list Dependency) (visited : gset string) : nat :=
  length (filter (fun dep => Module_String (From_ dep) ∉ visited) deps).

(** The graphs of a traversal of the edges [deps]: the edges are [deps] and
    the cache agrees with them. *)
Definition consistent_with (deps : list Dependency) (g : DependencyGraph) : Prop :=
  Dependencies g = deps /\ cache_consistent g.

(** One of the lines ends with the canonical string [k] and a newline. *)
Definition printed (k : string) (lines : list string) : Prop :=
  exists pre, pre +:+ k +:+ nl ∈ lines.

(** A stretch of the traversal that starts below [src], takes the visited
    set from [v] to [v'] and writes [lines]: the visited set grows, the
    nodes it gains are printed and have all their successors visited, and
    every line shows a node that can be reached from [src]. *)
Definition visits (deps : list Dependency) (src : string)
    (v v' : gset string) (lines : list string) : Prop :=
  v ⊆ v'
  /\ (forall k, k ∈ v' -> k ∉ v ->
        printed k lines /\ forall c, edge deps k c -> c ∈ v')
  /\ (forall line, line ∈ lines ->
        exists pre k, line = pre +:+ k +:+ nl /\ rtc (edge deps) src k).

(** The outcome [err] of a run into the logged writer [st] is sound: when
    it is an error, the last text of the log is the one whose write
    returned that error, and the writer is as that write left it. *)
Definition failed_last {W E : Type} (Write : W -> string -> W * option E)
    (st : W * list string) (err : option E) : Prop :=
  match err with
  | None => True
  | Some e => exists front text wi, st.2 = front ++ [text] /\ Write wi text = (st.1, Some e)
  end.

(** An entry of the node fragment is in group 2, the group of the root. *)
Definition in_root_group (entry : string) : Prop :=
  exists front, entry = front +:+ ": 2}".

(** * Properties *)

(** ** Byte-wise order of strings *)

Section StringOrder.

Lemma ltb_false_leb (a b : string) : String.ltb a b = false <-> String.leb b a = true.
Proof.
  unfold String.ltb, String.leb. rewrite (String.compare_antisym b a).
  destruct (String.compare a b); simpl; split; congruence.
Qed.

Lemma ltb_irrefl (a : string) : String.ltb a a = false.
Proof.
  apply ltb_false_leb. destruct (String.leb_total a a); assumption.
Qed.

Lemma ltb_asym (a b : string) : String.ltb a b = true -> String.ltb b a = false.
Proof.
  unfold String.ltb. rewrite (String.compare_antisym b a).
  destruct (String.compare a b); simpl; congruence.
Qed.

Lemma ltb_false_antisym (a b : string) :
  String.ltb a b = false -> String.ltb b a = false -> a = b.
Proof.
  rewrite !ltb_false_leb. intros Hba Hab. apply String.leb_antisym; assumption.
Qed.

Lemma ltb_trans (a b c : string) :
  String.ltb a b = true -> String.ltb b c = true -> String.ltb a c = true.
Proof.
  intros Hab Hbc.
  destruct (String.ltb a c) eqn:Hac; [reflexivity|exfalso].
  apply ltb_false_leb in Hac.
  pose proof (ltb_asym _ _ Hab) as Hba. apply ltb_false_leb in Hba.
  pose proof (ltb_asym _ _ Hbc) as Hcb. apply ltb_false_leb in Hcb.
  assert (Hca : String.le c a) by (apply Is_true_true; exact Hac).
  assert (Hab' : String.le a b) by (apply Is_true_true; exact Hba).
  assert (Hbc' : String.le b c) by (apply Is_true_true; exact Hcb).
  assert (a = b).
  { apply (anti_symm String.le); [exact Hab'|]. etrans; eassumption. }
  subst b. rewrite ltb_irrefl in Hab. discriminate.
Qed.

End StringOrder.

(** ** [sort.Slice] *)

Section SortFacts.
Context {A : Type} (less : A -> A -> bool).
Hypothesis less_asym : forall x y, less x y = true -> less y x = false.
Hypothesis less_trans : forall x y z, less x y = true -> less y z = true -> less x z = true.

Lemma insert_sorted_perm (x : A) (l : list A) : GoSort.insert_sorted less x l ≡ₚ x :: l.
Proof.
  induction l as [|y l IH]; simpl; [reflexivity|].
  destruct (less x y); [reflexivity|].
  rewrite IH. apply Permutation_swap.
Qed.

Lemma Slice_perm (l : list A) : GoSort.Slice less l ≡ₚ l.
Proof.
  unfold GoSort.Slice.
  assert (Hgen : forall acc, fold_left (fun acc x => GoSort.insert_sorted less x acc) l acc ≡ₚ acc ++ l).
  { induction l as [|x l IH]; intros acc; simpl.
    - by rewrite app_nil_r.
    - rewrite IH, insert_sorted_perm. simpl. apply Permutation_middle. }
  apply Hgen.
Qed.

Lemma insert_sorted_sorted (x : A) (l : list A) :
  GoSort.sorted_by less l -> GoSort.sorted_by less (GoSort.insert_sorted less x l).
Proof.
  unfold GoSort.sorted_by. induction 1 as [|y l Hl IH Hy]; simpl.
  - repeat constructor.
  - destruct (less x y) eqn:Hxy.
    + constructor; [by constructor|].
      constructor; [by apply less_asym|].
      eapply Forall_impl; [exact Hy|]. intros z Hzy. simpl in Hzy.
      destruct (less z x) eqn:Hzx; [|reflexivity].
      rewrite (less_trans _ _ _ Hzx Hxy) in Hzy. discriminate.
    + constructor; [exact IH|].
      rewrite insert_sorted_perm. by constructor.
Qed.

Lemma Slice_sorted (l : list A) : GoSort.sorted_by less (GoSort.Slice less l).
Proof.
  unfold GoSort.Slice.
  assert (Hgen : forall acc, GoSort.sorted_by less acc ->
            GoSort.sorted_by less (fold_left (fun acc x => GoSort.insert_sorted less x acc) l acc)).
  { induction l as [|x l IH]; intros acc Hacc; simpl; [exact Hacc|].
    apply IH, insert_sorted_sorted, Hacc. }
  apply Hgen. constructor.
Qed.

(** Whatever algorithm sorts them, elements that [less] tells apart end
    up in one order. *)
Lemma sorted_by_unique (l1 l2 : list A) :
  (forall x y, x ∈ l1 -> y ∈ l2 -> less x y = false -> less y x = false -> x = y) ->
  GoSort.sorted_by less l1 -> GoSort.sorted_by less l2 -> l1 ≡ₚ l2 -> l1 = l2.
Proof.
  intros Hsep H1 H2 Hp.
  eapply StronglySorted_unique_strong; [|exact H1|exact H2|exact Hp].
  intros x y Hx Hy Hxy Hyx. simpl in *. by apply Hsep.
Qed.

End SortFacts.

(** ** The graph store *)

Section GraphStore.

Lemma Module_String_alias :
  Module_String (mkModule "a@b" "") = Module_String (mkModule "a" "b").
Proof. reflexivity. Qed.

Lemma GetDirectDependencies_loop (k : string) (deps : list Dependency) (acc : list GoModule) :
  fold_left
    (fun acc dep => if String.eqb (Module_String (From_ dep)) k then acc ++ [To dep] else acc)
    deps acc
  = acc ++ (To <$> edges_from k deps).
Proof.
  revert acc. induction deps as [|d deps IH]; intros acc; simpl.
  - by rewrite app_nil_r.
  - rewrite IH. unfold edges_from. rewrite filter_cons.
    destruct (String.eqb_spec (Module_String (From_ d)) k) as [Heq|Hne].
    + rewrite decide_True by done. rewrite fmap_cons, <- app_assoc. done.
    + rewrite decide_False by done. done.
Qed.

Lemma GetDirectDependencies_filter (dg : DependencyGraph) (module : GoModule) :
  GetDirectDependencies dg module = directDependenciesOf dg module.
Proof.
  unfold GetDirectDependencies, directDependenciesOf.
  by rewrite GetDirectDependencies_loop.
Qed.

Lemma edges_from_app (k : string) (l1 l2 : list Dependency) :
  edges_from k (l1 ++ l2) = edges_from k l1 ++ edges_from k l2.
Proof. apply filter_app. Qed.

(** *** The module set *)

Lemma moduleSet_loop_lookup (deps : list Dependency) :
  forall (ms : gmap string GoModule) (l0 : list GoModule) (k : string),
    ms !! k = last (with_key k l0) ->
    fold_left moduleSet_step deps ms !! k
    = last (with_key k (l0 ++ flat_map (fun dep => [From_ dep; To dep]) deps)).
Proof.
  induction deps as [|d deps IH]; intros ms l0 k Hms; simpl.
  - by rewrite app_nil_r.
  - replace (l0 ++ From_ d :: To d :: flat_map (fun dep => [From_ dep; To dep]) deps)
      with ((l0 ++ [From_ d; To d]) ++ flat_map (fun dep => [From_ dep; To dep]) deps)
      by (by rewrite <- app_assoc).
    apply IH. unfold moduleSet_step, with_key.
    rewrite filter_app, !filter_cons, filter_nil.
    rewrite !lookup_insert.
    destruct (decide (Module_String (To d) = k)) as [Ht|Ht];
      destruct (decide (Module_String (From_ d) = k)) as [Hf|Hf].
    + by rewrite last_app.
    + by rewrite last_app.
    + by rewrite last_app.
    + rewrite app_nil_r. exact Hms.
Qed.

(** The entry of [moduleSet] under a canonical string is the last module
    of the graph written under it. *)
Lemma moduleSet_lookup (dg : DependencyGraph) (k : string) :
  moduleSet dg !! k = last (with_key k (graphModules dg)).
Proof.
  unfold moduleSet, graphModules.
  change (MainModule dg :: flat_map (fun dep => [From_ dep; To dep]) (Dependencies dg))
    with ([MainModule dg] ++ flat_map (fun dep => [From_ dep; To dep]) (Dependencies dg)).
  apply (moduleSet_loop_lookup (Dependencies dg)).
  unfold with_key. rewrite filter_cons, filter_nil, lookup_insert.
  destruct (decide (Module_String (MainModule dg) = k)); [done|].
  by rewrite lookup_empty.
Qed.

Lemma moduleSet_entry (dg : DependencyGraph) (k : string) (m : GoModule) :
  moduleSet dg !! k = Some m -> Module_String m = k /\ m ∈ graphModules dg.
Proof.
  rewrite moduleSet_lookup. intros H%last_Some_elem_of.
  unfold with_key in H. by apply list_elem_of_filter in H.
Qed.

Lemma moduleSet_is_Some (dg : DependencyGraph) (k : string) :
  is_Some (moduleSet dg !! k) <-> k ∈ Module_String <$> graphModules dg.
Proof.
  rewrite moduleSet_lookup, last_is_Some. split.
  - intros Hne. destruct (with_key k (graphModules dg)) as [|m l] eqn:E; [done|].
    assert (Hm : m ∈ with_key k (graphModules dg)) by (rewrite E; left).
    unfold with_key in Hm. apply list_elem_of_filter in Hm as [<- Hm].
    by apply list_elem_of_fmap_2.
  - intros (m & -> & Hm)%list_elem_of_fmap Hnil.
    assert (Hm' : m ∈ with_key (Module_String m) (graphModules dg)).
    { unfold with_key. by apply list_elem_of_filter. }
    rewrite Hnil in Hm'. by apply elem_of_nil in Hm'.
Qed.

(** *** [GetAllModules] *)

Lemma module_less_asym (x y : GoModule) : module_less x y = true -> module_less y x = false.
Proof. apply ltb_asym. Qed.

Lemma module_less_trans (x y z : GoModule) :
  module_less x y = true -> module_less y z = true -> module_less x z = true.
Proof. apply ltb_trans. Qed.

Lemma collect_values {V : Type} (order : list (string * V)) (acc : list V) :
  fold_left (fun modules kv => modules ++ [kv.2]) order acc = acc ++ order.*2.
Proof.
  revert acc. induction order as [|kv order IH]; intros acc; simpl.
  - by rewrite app_nil_r.
  - rewrite IH, <- app_assoc. done.
Qed.

Lemma GetAllModules_ranged_sort (dg : DependencyGraph) (order : list (string * GoModule)) :
  GetAllModules_ranged dg order = GoSort.Slice module_less (order.*2).
Proof. unfold GetAllModules_ranged. by rewrite collect_values. Qed.

Lemma range_order_elem {V : Type} (m : gmap string V) (order : list (string * V)) k v :
  range_order m order -> (k, v) ∈ order <-> m !! k = Some v.
Proof. intros Hp. unfold range_order in Hp. rewrite Hp. apply elem_of_map_to_list. Qed.

Lemma range_order_NoDup {V : Type} (m : gmap string V) (order : list (string * V)) :
  range_order m order -> NoDup (order.*1).
Proof. intros Hp. unfold range_order in Hp. rewrite Hp. apply NoDup_fst_map_to_list. Qed.

Lemma range_order_self {V : Type} (m : gmap string V) : range_order m (map_to_list m).
Proof. unfold range_order. reflexivity. Qed.

Lemma ranged_keys (dg : DependencyGraph) (order : list (string * GoModule)) :
  range_order (moduleSet dg) order -> Module_String <$> order.*2 = order.*1.
Proof.
  intros Hp.
  assert (Hall : Forall (fun kv => Module_String kv.2 = kv.1) order).
  { apply Forall_forall. intros [k m] Hin. simpl.
    apply (range_order_elem _ _ _ _ Hp) in Hin. by apply moduleSet_entry in Hin as [? _]. }
  clear Hp. induction Hall as [|kv order Hkv _ IH]; [done|].
  rewrite !fmap_cons. by f_equal.
Qed.

Lemma ranged_strings (dg : DependencyGraph) (order : list (string * GoModule)) :
  range_order (moduleSet dg) order ->
  Module_String <$> GetAllModules_ranged dg order ≡ₚ order.*1.
Proof.
  intros Hp. rewrite GetAllModules_ranged_sort, <- (ranged_keys dg order Hp).
  apply fmap_Permutation, Slice_perm.
Qed.

Lemma ranged_elem (dg : DependencyGraph) (order : list (string * GoModule)) (m : GoModule) :
  range_order (moduleSet dg) order ->
  m ∈ GetAllModules_ranged dg order <-> moduleSet dg !! Module_String m = Some m.
Proof.
  intros Hp. rewrite GetAllModules_ranged_sort, Slice_perm. split.
  - intros ([k m'] & -> & Hin)%list_elem_of_fmap. simpl.
    apply (range_order_elem _ _ _ _ Hp) in Hin.
    destruct (moduleSet_entry _ _ _ Hin) as [-> _]. exact Hin.
  - intros Hl. apply (range_order_elem _ _ _ _ Hp) in Hl.
    apply list_elem_of_fmap. by exists (Module_String m, m).
Qed.

Lemma strict_of_NoDup (l : list string) :
  NoDup l -> StronglySorted (fun a b => String.ltb b a = false) l ->
  StronglySorted (fun a b => String.ltb a b = true) l.
Proof.
  intros Hnd Hs. induction Hs as [|a l Hs IH Ha]; [constructor|].
  apply NoDup_cons in Hnd as [Hnotin Hnd].
  constructor; [by apply IH|].
  apply Forall_forall. intros b Hb.
  rewrite Forall_forall in Ha. specialize (Ha b Hb). simpl in Ha.
  destruct (String.ltb a b) eqn:Hab; [done|].
  exfalso. apply Hnotin. by rewrite (ltb_false_antisym a b Hab Ha).
Qed.

Lemma ranged_sorted (dg : DependencyGraph) (order : list (string * GoModule)) :
  range_order (moduleSet dg) order ->
  StronglySorted (fun a b => String.ltb a b = true)
    (Module_String <$> GetAllModules_ranged dg order).
Proof.
  intros Hp. apply strict_of_NoDup.
  - rewrite (ranged_strings dg order Hp). by eapply range_order_NoDup.
  - rewrite GetAllModules_ranged_sort.
    apply (StronglySorted_fmap Module_String (fun a b => module_less b a = false)
             (fun a b => String.ltb b a = false)).
    + intros x y Hxy. exact Hxy.
    + apply Slice_sorted; [apply module_less_asym|apply module_less_trans].
Qed.

Lemma GetAllModules_order_irrelevant (dg : DependencyGraph)
    (order1 order2 : list (string * GoModule)) :
  range_order (moduleSet dg) order1 -> range_order (moduleSet dg) order2 ->
  GetAllModules_ranged dg order1 = GetAllModules_ranged dg order2.
Proof.
  intros H1 H2. apply (sorted_by_unique module_less).
  - intros x y Hx Hy Hxy Hyx.
    apply (ranged_elem _ _ _ H1) in Hx. apply (ranged_elem _ _ _ H2) in Hy.
    pose proof (ltb_false_antisym _ _ Hxy Hyx) as Heq.
    rewrite Heq in Hx. congruence.
  - rewrite GetAllModules_ranged_sort.
    apply Slice_sorted; [apply module_less_asym|apply module_less_trans].
  - rewrite GetAllModules_ranged_sort.
    apply Slice_sorted; [apply module_less_asym|apply module_less_trans].
  - rewrite !GetAllModules_ranged_sort, !Slice_perm.
    apply fmap_Permutation. unfold range_order in *. by rewrite H1, H2.
Qed.

(** *** The adjacency index *)

Lemma buildTree_loop_lookup (deps : list Dependency) :
  forall (t : gmap string (list string)) (k : string),
    buildTree_loop deps t !! k
    = match edges_from k deps with
      | [] => t !! k
      | _ :: _ => Some (default [] (t !! k) ++ adjacency_list k deps)
      end.
Proof.
  unfold buildTree_loop, adjacency_list, edges_from.
  induction deps as [|d deps IH]; intros t k; simpl; [done|].
  rewrite IH, filter_cons. clear IH.
  destruct (decide (Module_String (From_ d) = k)) as [Hk|Hk].
  - subst k. rewrite lookup_insert_eq. simpl.
    destruct (filter _ deps) as [|e es]; simpl.
    + done.
    + by rewrite <- app_assoc.
  - by rewrite lookup_insert_ne.
Qed.

Lemma adjacency_lookup (deps : list Dependency) (k : string) :
  adjacency deps !! k
  = match edges_from k deps with
    | [] => None
    | _ :: _ => Some (adjacency_list k deps)
    end.
Proof.
  unfold adjacency.
  set (entries := (fun dep => let k := Module_String (From_ dep) in
                              (k, adjacency_list k deps)) <$> deps).
  destruct (list_to_map entries !! k) as [x|] eqn:E.
  - apply elem_of_list_to_map_2 in E.
    apply list_elem_of_fmap in E as (d & Hd & Hin). simpl in Hd.
    injection Hd as Hk Hx. subst x.
    assert (Hmem : d ∈ edges_from k deps).
    { unfold edges_from. apply list_elem_of_filter. by split. }
    destruct (edges_from k deps); [by apply elem_of_nil in Hmem|by rewrite <- Hk].
  - apply not_elem_of_list_to_map in E.
    destruct (edges_from k deps) as [|d ds] eqn:F; [done|].
    exfalso. apply E.
    assert (Hmem : d ∈ edges_from k deps) by (rewrite F; left).
    unfold edges_from in Hmem. apply list_elem_of_filter in Hmem as [Hk Hin].
    apply list_elem_of_fmap. exists (k, adjacency_list k deps). split; [done|].
    apply list_elem_of_fmap. exists d. simpl. by rewrite Hk.
Qed.

Lemma buildTree_loop_adjacency (deps : list Dependency) :
  buildTree_loop deps ∅ = adjacency deps.
Proof.
  apply map_eq. intros k.
  rewrite buildTree_loop_lookup, adjacency_lookup, lookup_empty.
  by destruct (edges_from k deps).
Qed.

Lemma GetTree_fresh (dg : DependencyGraph) :
  tree dg = ∅ -> (GetTree dg).1 = adjacency (Dependencies dg).
Proof.
  intros He. unfold GetTree, buildTree. simpl. rewrite He, map_size_empty.
  rewrite decide_False by lia. simpl. apply buildTree_loop_adjacency.
Qed.

Lemma GetTree_cache_ok (dg : DependencyGraph) :
  cache_ok dg -> (GetTree dg).1 = adjacency (Dependencies dg).
Proof.
  intros [He|Ha]; [by apply GetTree_fresh|].
  unfold GetTree, buildTree. simpl.
  destruct (decide (0 < size (tree dg))) as [Hs|Hs]; [exact Ha|]. simpl.
  assert (He : tree dg = ∅) by (apply map_size_empty_iff; lia).
  rewrite He. apply buildTree_loop_adjacency.
Qed.

Lemma Dependencies_buildTree (dg : DependencyGraph) :
  Dependencies (buildTree dg) = Dependencies dg.
Proof. unfold buildTree. by destruct (decide _). Qed.

Lemma MainModule_buildTree (dg : DependencyGraph) :
  MainModule (buildTree dg) = MainModule dg.
Proof. unfold buildTree. by destruct (decide _). Qed.

Lemma run_call_cache_ok (dg : DependencyGraph) (c : store_call) :
  cache_ok dg -> cache_ok (run_call dg c).
Proof.
  intros Hok. destruct c as [from to|]; simpl.
  - by left.
  - right. change (tree (buildTree dg)) with (GetTree dg).1.
    rewrite Dependencies_buildTree. by apply GetTree_cache_ok.
Qed.

Lemma run_calls_cache_ok (calls : list store_call) :
  forall dg, cache_ok dg -> cache_ok (run_calls calls dg).
Proof.
  unfold run_calls. induction calls as [|c calls IH]; intros dg Hok; simpl; [done|].
  by apply IH, run_call_cache_ok.
Qed.

Lemma run_calls_Dependencies (calls : list store_call) :
  forall dg, Dependencies (run_calls calls dg) = Dependencies dg ++ added_edges calls.
Proof.
  unfold run_calls, added_edges.
  induction calls as [|c calls IH]; intros dg; simpl; [by rewrite app_nil_r|].
  rewrite IH. destruct c as [from to|]; simpl.
  - by rewrite <- app_assoc.
  - by rewrite Dependencies_buildTree.
Qed.

End GraphStore.

(** ** Claims about the graph store *)

Section GraphStoreClaims.

Lemma one_with_key (l : list GoModule) (k : string) :
  NoDup (Module_String <$> l) -> k ∈ Module_String <$> l -> length (with_key k l) = 1.
Proof.
  unfold with_key. induction l as [|m l IH]; intros Hnd Hin.
  - by apply elem_of_nil in Hin.
  - rewrite fmap_cons in Hnd, Hin. apply NoDup_cons in Hnd as [Hnotin Hnd].
    rewrite filter_cons. destruct (decide (Module_String m = k)) as [Hk|Hk].
    + simpl. f_equal. apply length_zero_iff_nil.
      destruct (filter _ l) as [|m' l'] eqn:E; [done|].
      assert (Hm' : m' ∈ filter (fun m => Module_String m = k) l) by (rewrite E; left).
      apply list_elem_of_filter in Hm' as [Hk' Hm'].
      exfalso. apply Hnotin. rewrite Hk, <- Hk'. by apply list_elem_of_fmap_2.
    + apply IH; [done|]. apply elem_of_cons in Hin as [Hin|Hin]; [congruence|done].
Qed.

(** C1.  Whatever order the range over the module set takes,
    [GetAllModules] returns the modules of the graph (the root, every
    [from], every [to]) with one module for each canonical string, in
    strictly ascending order of canonical string; the root's canonical
    string is present, alone when the dependency sequence is empty; and
    any other call on the same graph returns the same sequence. *)
Theorem GetAllModules_sorted_set (dg : DependencyGraph) (order : list (string * GoModule)) :
  range_order (moduleSet dg) order ->
  let modules := GetAllModules_ranged dg order in
  (forall s, s ∈ Module_String <$> modules <-> s ∈ Module_String <$> graphModules dg)
  /\ (forall m, m ∈ modules -> m ∈ graphModules dg)
  /\ NoDup (Module_String <$> modules)
  /\ StronglySorted (fun a b => String.ltb a b = true) (Module_String <$> modules)
  /\ Module_String (MainModule dg) ∈ Module_String <$> modules
  /\ (Dependencies dg = [] -> modules = [MainModule dg])
  /\ (forall order', range_order (moduleSet dg) order' ->
        GetAllModules_ranged dg order' = modules)
  /\ GetAllModules dg = modules.
Proof.
  intros Hp modules.
  assert (Hstr : forall s, s ∈ Module_String <$> modules <-> s ∈ Module_String <$> graphModules dg).
  { intros s. unfold modules. rewrite (ranged_strings dg order Hp).
    rewrite <- moduleSet_is_Some. unfold range_order in Hp. rewrite Hp. split.
    - intros ([k m] & -> & Hin)%list_elem_of_fmap.
      apply elem_of_map_to_list in Hin. by exists m.
    - intros [m Hm]. apply list_elem_of_fmap. exists (s, m).
      split; [done|]. by apply elem_of_map_to_list. }
  assert (Hirr : forall order', range_order (moduleSet dg) order' ->
                   GetAllModules_ranged dg order' = modules).
  { intros order' Hp'. by apply GetAllModules_order_irrelevant. }
  split; [exact Hstr|]. split.
  { intros m Hm. apply (ranged_elem _ _ _ Hp) in Hm. by apply moduleSet_entry in Hm as [_ ?]. }
  split.
  { unfold modules. rewrite (ranged_strings dg order Hp). by eapply range_order_NoDup. }
  split; [by apply ranged_sorted|]. split.
  { apply Hstr. unfold graphModules. rewrite fmap_cons. left. }
  split; [|split; [exact Hirr|apply Hirr, range_order_self]].
  intros Hnil. rewrite <- (Hirr _ (range_order_self _)).
  unfold moduleSet. rewrite Hnil. simpl.
  rewrite insert_empty, map_to_list_singleton. reflexivity.
Qed.

Lemma range_order_reverse {V : Type} (m : gmap string V) :
  range_order m (reverse (map_to_list m)).
Proof. unfold range_order. apply reverse_Permutation. Qed.

Lemma GetAllModules_sorted_set_witness :
  range_order (moduleSet createTestGraph) (reverse (map_to_list (moduleSet createTestGraph)))
  /\ NoDup (Module_String
             <$> GetAllModules_ranged createTestGraph
                   (reverse (map_to_list (moduleSet createTestGraph)))).
Proof.
  split; [apply range_order_reverse|].
  exact (proj1 (proj2 (proj2
    (GetAllModules_sorted_set createTestGraph
       (reverse (map_to_list (moduleSet createTestGraph))) (range_order_reverse _))))).
Defined.

Lemma GetAllModules_NoDup (dg : DependencyGraph) : NoDup (Module_String <$> GetAllModules dg).
Proof.
  unfold GetAllModules. rewrite (ranged_strings dg _ (range_order_self _)).
  apply NoDup_fst_map_to_list.
Qed.

Lemma GetAllModules_strings (dg : DependencyGraph) (s : string) :
  s ∈ Module_String <$> GetAllModules dg <-> s ∈ Module_String <$> graphModules dg.
Proof.
  unfold GetAllModules. rewrite (ranged_strings dg _ (range_order_self _)).
  rewrite <- moduleSet_is_Some. split.
  - intros ([k m] & -> & Hin)%list_elem_of_fmap.
    apply elem_of_map_to_list in Hin. by exists m.
  - intros [m Hm]. apply list_elem_of_fmap. exists (s, m).
    split; [done|]. by apply elem_of_map_to_list.
Qed.

(** C7.  [GetDirectDependencies] returns the [to] values of the edges
    whose [from] has the canonical string of the module, in insertion
    order; an edge added twice contributes two entries, and an edge from
    another canonical string contributes none. *)
Theorem GetDirectDependencies_insertion_order (dg : DependencyGraph) (module : GoModule) :
  GetDirectDependencies dg module = directDependenciesOf dg module
  /\ (forall from to, Module_String from = Module_String module ->
        GetDirectDependencies (AddDependency (AddDependency dg from to) from to) module
        = GetDirectDependencies dg module ++ [to; to])
  /\ (forall from to, Module_String from <> Module_String module ->
        GetDirectDependencies (AddDependency dg from to) module
        = GetDirectDependencies dg module).
Proof.
  split; [apply GetDirectDependencies_filter|]. split.
  - intros from to Heq. rewrite !GetDirectDependencies_filter.
    unfold directDependenciesOf, AddDependency. simpl.
    rewrite !edges_from_app, !fmap_app, <- app_assoc. f_equal.
    unfold edges_from. rewrite !filter_cons, filter_nil. simpl.
    by rewrite decide_True by done.
  - intros from to Hne. rewrite !GetDirectDependencies_filter.
    unfold directDependenciesOf, AddDependency. simpl.
    rewrite edges_from_app, fmap_app.
    unfold edges_from at 2. rewrite filter_cons, filter_nil. simpl.
    rewrite decide_False by done. by rewrite app_nil_r.
Qed.

(** C10.  Identity is by canonical string: [GetAllModules] never returns
    two modules with one canonical string, it returns exactly one module
    for the canonical string of a module of the graph, and two modules
    with one canonical string have the same direct dependencies, so that
    each of them is given the [to] of the edges leaving the other. *)
Theorem identity_by_canonical_string (dg : DependencyGraph) (m1 m2 : GoModule) :
  Module_String m1 = Module_String m2 ->
  NoDup (Module_String <$> GetAllModules dg)
  /\ (m1 ∈ graphModules dg ->
        length (with_key (Module_String m2) (GetAllModules dg)) = 1)
  /\ GetDirectDependencies dg m1 = GetDirectDependencies dg m2
  /\ (forall dep, dep ∈ Dependencies dg -> From_ dep = m2 ->
        To dep ∈ GetDirectDependencies dg m1).
Proof.
  intros Heq. split; [apply GetAllModules_NoDup|]. split; [|split].
  - intros Hin. apply one_with_key; [apply GetAllModules_NoDup|].
    apply GetAllModules_strings. rewrite <- Heq. by apply list_elem_of_fmap_2.
  - rewrite !GetDirectDependencies_filter. unfold directDependenciesOf. by rewrite Heq.
  - intros dep Hin Hfrom. rewrite GetDirectDependencies_filter.
    unfold directDependenciesOf. apply list_elem_of_fmap_2.
    unfold edges_from. apply list_elem_of_filter. split; [|done].
    by rewrite Hfrom, Heq.
Qed.

Lemma identity_by_canonical_string_witness :
  mkModule "a@b" "" <> mkModule "a" "b"
  /\ Module_String (mkModule "a@b" "") = Module_String (mkModule "a" "b")
  /\ GetDirectDependencies alias_graph (mkModule "a@b" "")
     = GetDirectDependencies alias_graph (mkModule "a" "b").
Proof.
  split; [discriminate|]. split; [reflexivity|].
  exact (proj1 (proj2 (proj2
    (identity_by_canonical_string alias_graph (mkModule "a@b" "") (mkModule "a" "b")
       eq_refl)))).
Defined.

(** C5.  On a graph built by any sequence of calls of [AddDependency]
    (with calls of [GetTree] anywhere in between), [GetTree] returns the
    adjacency index of the current dependency sequence, which is what a
    single pass over the sequence computes from the empty map; and after
    a call of [AddDependency] on a graph in any state, whatever its cache
    held, [GetTree] returns the index of the extended sequence. *)
Theorem GetTree_never_stale (root : GoModule) (calls : list store_call) :
  let dg := run_calls calls (NewDependencyGraph root) in
  Dependencies dg = added_edges calls
  /\ (GetTree dg).1 = adjacency (Dependencies dg)
  /\ (GetTree dg).1 = buildTree_loop (Dependencies dg) ∅
  /\ (forall k, (GetTree dg).1 !! k
                = match edges_from k (Dependencies dg) with
                  | [] => None
                  | _ :: _ => Some (adjacency_list k (Dependencies dg))
                  end)
  /\ (forall dg0 from to,
        (GetTree (AddDependency dg0 from to)).1
        = adjacency (Dependencies dg0 ++ [mkDependency from to])).
Proof.
  intros dg.
  assert (Hok : cache_ok dg) by (apply run_calls_cache_ok; by left).
  split; [unfold dg; by rewrite run_calls_Dependencies|].
  split; [by apply GetTree_cache_ok|].
  split; [rewrite buildTree_loop_adjacency; by apply GetTree_cache_ok|].
  split; [intros k; rewrite <- adjacency_lookup; by rewrite GetTree_cache_ok|].
  intros dg0 from to. by rewrite GetTree_fresh.
Qed.

End GraphStoreClaims.

(** ** The renderers on the example graphs *)

Section RendererExamples.
Import Renderer.

(** C3.  On a module whose name is a, double quote, b, the node fragment
    of [generateNodes] escapes the quote first and the backslash second:
    the name field reads a, backslash, backslash, double quote, b, because
    the backslash that escaped the quote is escaped again. *)
Theorem generateNodes_escapes_quote_first :
  generateNodes quoted_graph
  = "[{" +:+ dq +:+ "id" +:+ dq +:+ ": 0, " +:+ dq +:+ "name" +:+ dq +:+ ": "
      +:+ dq +:+ "a" +:+ bs +:+ bs +:+ dq +:+ "b" +:+ dq
      +:+ ", " +:+ dq +:+ "group" +:+ dq +:+ ": 2}]".
Proof. vm_compute. reflexivity. Qed.

(** C2.  Two runs of the flowchart renderer on one two-module graph that
    differ only in the order in which the range over [nodeIDs] visits the
    map write the two node declarations in opposite orders. *)
Theorem MermaidRender_depends_on_map_order :
  exists r1 r2,
    MermaidRender Buffer_Write two_module_graph [] r1
    /\ MermaidRender Buffer_Write two_module_graph [] r2
    /\ r1.1 = ["graph TD" +:+ nl;
               "    N1[" +:+ dq +:+ "a" +:+ dq +:+ "]" +:+ nl;
               "    N2[" +:+ dq +:+ "b" +:+ dq +:+ "]" +:+ nl;
               "    N1 --> N2" +:+ nl]
    /\ r2.1 = ["graph TD" +:+ nl;
               "    N2[" +:+ dq +:+ "b" +:+ dq +:+ "]" +:+ nl;
               "    N1[" +:+ dq +:+ "a" +:+ dq +:+ "]" +:+ nl;
               "    N1 --> N2" +:+ nl]
    /\ r1 <> r2.
Proof.
  exists (MermaidRender_ranged Buffer_Write
            (map_to_list (Mermaid_nodeIDs two_module_graph)) two_module_graph []).
  exists (MermaidRender_ranged Buffer_Write
            (reverse (map_to_list (Mermaid_nodeIDs two_module_graph))) two_module_graph []).
  split; [|split].
  - eexists. split; [|reflexivity]. unfold range_order. reflexivity.
  - eexists. split; [|reflexivity]. unfold range_order. apply reverse_Permutation.
  - split; [vm_compute; reflexivity|]. split; [vm_compute; reflexivity|].
    vm_compute. discriminate.
Qed.

(** C6.  Rendering [unsorted_graph] as plaintext succeeds and leaves a
    graph whose adjacency list for the root is sorted, where the graph
    before the call lists the two edges in insertion order. *)
Theorem PlaintextRender_sorts_the_cache :
  exists graph' out,
    PlaintextRender Buffer_Write unsorted_graph [] = Some (graph', out, None)
    /\ (GetTree unsorted_graph).1 !! "r" = Some ["b"; "a"]
    /\ (GetTree graph').1 !! "r" = Some ["a"; "b"]
    /\ MainModule graph' = MainModule unsorted_graph
    /\ Dependencies graph' = Dependencies unsorted_graph.
Proof.
  eexists. eexists. split; [vm_compute; reflexivity|].
  repeat split; vm_compute; reflexivity.
Qed.

End RendererExamples.

(** ** The node-link serializer *)

Section NodeLink.
Import Renderer.

Lemma index_fold_miss (l : list GoModule) :
  forall (acc : gmap string nat * nat) (k : string),
    k ∉ Module_String <$> l -> (fold_left index_step l acc).1 !! k = acc.1 !! k.
Proof.
  induction l as [|m l IH]; intros acc k Hk; simpl; [done|].
  rewrite fmap_cons in Hk. apply not_elem_of_cons in Hk as [Hne Hk].
  rewrite IH by done. simpl. by rewrite lookup_insert_ne.
Qed.

Lemma index_fold_hit (l : list GoModule) :
  forall (acc : gmap string nat * nat) (j : nat) (m : GoModule),
    NoDup (Module_String <$> l) -> l !! j = Some m ->
    (fold_left index_step l acc).1 !! Module_String m = Some (acc.2 + j).
Proof.
  induction l as [|m0 l IH]; intros acc j m Hnd Hj; [done|].
  rewrite fmap_cons in Hnd. apply NoDup_cons in Hnd as [Hnotin Hnd].
  destruct j as [|j]; simpl in *.
  - injection Hj as ->. rewrite index_fold_miss by done. simpl.
    rewrite lookup_insert_eq. f_equal. lia.
  - rewrite (IH _ j m Hnd Hj). simpl. f_equal. lia.
Qed.

Lemma moduleToIndex_lookup (graph : DependencyGraph) (j : nat) (m : GoModule) :
  GetAllModules graph !! j = Some m -> moduleToIndex graph !! Module_String m = Some j.
Proof.
  intros Hj. unfold moduleToIndex.
  rewrite (index_fold_hit _ _ j m (GetAllModules_NoDup graph) Hj). done.
Qed.

Lemma position_of_string (graph : DependencyGraph) (m : GoModule) :
  m ∈ graphModules graph ->
  exists i mi, GetAllModules graph !! i = Some mi /\ Module_String mi = Module_String m.
Proof.
  intros Hin.
  assert (Hs : Module_String m ∈ Module_String <$> GetAllModules graph).
  { apply GetAllModules_strings. by apply list_elem_of_fmap_2. }
  apply list_elem_of_fmap in Hs as (mi & Heq & Hmi).
  apply list_elem_of_lookup in Hmi as [i Hi]. by exists i, mi.
Qed.

Lemma position_unique (graph : DependencyGraph) (i j : nat) (mi mj : GoModule) :
  GetAllModules graph !! i = Some mi -> GetAllModules graph !! j = Some mj ->
  Module_String mi = Module_String mj -> i = j.
Proof.
  intros Hi Hj Heq.
  apply (NoDup_lookup _ i j (Module_String mi) (GetAllModules_NoDup graph)).
  - by rewrite list_lookup_fmap, Hi.
  - by rewrite list_lookup_fmap, Hj, Heq.
Qed.

Lemma endpoints_in_graph (graph : DependencyGraph) (dep : Dependency) :
  dep ∈ Dependencies graph -> From_ dep ∈ graphModules graph /\ To dep ∈ graphModules graph.
Proof.
  intros Hin. unfold graphModules. split; right; apply list_elem_of_In, in_flat_map;
    exists dep; (split; [by apply list_elem_of_In|simpl; auto]).
Qed.

Lemma GetAllModules_length (graph : DependencyGraph) :
  length (GetAllModules graph)
  = length (remove_dups (Module_String <$> graphModules graph)).
Proof.
  rewrite <- (length_fmap Module_String (GetAllModules graph)).
  apply Permutation_length, NoDup_Permutation.
  - apply GetAllModules_NoDup.
  - apply NoDup_remove_dups.
  - intros s. rewrite GetAllModules_strings. by rewrite elem_of_remove_dups.
Qed.

End NodeLink.

(** ** The plaintext tree renderer *)

Section Plaintext.
Import Renderer.
Context {W E : Type} (Write : W -> string -> W * option E).
Local Abbreviation St := (PState (W := W)).

Lemma buildTree_built (g : DependencyGraph) : 0 < size (tree g) -> buildTree g = g.
Proof. intros H. unfold buildTree. by rewrite decide_True. Qed.

Lemma buildTree_empty (g : DependencyGraph) :
  tree g = ∅ ->
  buildTree g = mkGraph (MainModule g) (Dependencies g) (adjacency (Dependencies g)).
Proof.
  intros H. unfold buildTree. rewrite H, map_size_empty.
  rewrite decide_False by lia. by rewrite buildTree_loop_adjacency.
Qed.

Lemma size_zero_empty (t : gmap string (list string)) : ¬ 0 < size t -> t = ∅.
Proof. intros H. apply map_size_empty_iff. lia. Qed.

Lemma buildTree_idem (g : DependencyGraph) : buildTree (buildTree g) = buildTree g.
Proof.
  destruct (decide (0 < size (tree g))) as [H|H].
  - by rewrite !(buildTree_built g H).
  - apply size_zero_empty in H. rewrite (buildTree_empty g H).
    set (g' := mkGraph _ _ _).
    destruct (decide (0 < size (tree g'))) as [H'|H'].
    + by apply buildTree_built.
    + apply size_zero_empty in H'. rewrite (buildTree_empty g' H'). done.
Qed.

Lemma sort_entry_dom (t : gmap string (list string)) (k : string) :
  dom (sort_entry t k).2 = dom t.
Proof.
  unfold sort_entry. destruct (t !! k) as [deps|] eqn:Hk; simpl; [|done].
  rewrite dom_insert_L. apply elem_of_dom_2 in Hk.
  apply subseteq_union_1_L. by apply singleton_subseteq_l.
Qed.

Lemma sort_entry_missing (t : gmap string (list string)) (k : string) :
  k ∉ dom t -> sort_entry t k = ([], t).
Proof. intros H. apply not_elem_of_dom in H. unfold sort_entry. by rewrite H. Qed.

(** The graph [renderNode] goes on with once it has sorted an entry has its
    cache built. *)
Lemma sorted_graph_built (g : DependencyGraph) (k : string) :
  let g1 := buildTree g in
  let g2 := mkGraph (MainModule g1) (Dependencies g1) (sort_entry (tree g1) k).2 in
  buildTree g2 = g2.
Proof.
  intros g1 g2. unfold g2, sort_entry.
  destruct (tree g1 !! k) as [deps|] eqn:Hk; simpl.
  - apply buildTree_built. simpl.
    assert (Hne : <[k := GoSort.Strings deps]> (tree g1) <> ∅) by apply insert_non_empty.
    rewrite <- map_size_empty_iff in Hne. lia.
  - replace (mkGraph (MainModule g1) (Dependencies g1) (tree g1)) with g1
      by (by destruct g1).
    apply buildTree_idem.
Qed.

Lemma renderNode_S (fuel : nat) (nodeKey prefix : string) (isLast : bool)
    (g : DependencyGraph) (visited : gset string) (w : W) :
  renderNode Write (S fuel) nodeKey prefix isLast (g, visited, w)
  = match Write w (prefix +:+ connector_of prefix isLast +:+ nodeKey +:+ nl) with
    | (w1, Some err) => Some ((g, visited, w1), Some err)
    | (w1, None) =>
        if decide (nodeKey ∈ visited) then Some ((g, visited, w1), None)
        else
          let g1 := buildTree g in
          let se := sort_entry (tree g1) nodeKey in
          range_children
            (fun i dep => renderNode Write fuel dep (newPrefix_of prefix isLast)
                            (Nat.eqb i (length se.1 - 1)))
            0 se.1
            (mkGraph (MainModule g1) (Dependencies g1) se.2, {[nodeKey]} ∪ visited, w1)
    end.
Proof.
  simpl. destruct (Write w _) as [w1 [err|]]; [done|].
  destruct (decide (nodeKey ∈ visited)); [done|].
  unfold GetTree. by destruct (sort_entry (tree (buildTree g)) nodeKey).
Qed.

Lemma traversal_step_refl (st : St) : traversal_step st st.
Proof. by split. Qed.

Lemma traversal_step_trans (st1 st2 st3 : St) :
  traversal_step st1 st2 -> traversal_step st2 st3 -> traversal_step st1 st3.
Proof. intros [H1 H2] [H3 H4]. split; [by etrans|congruence]. Qed.

Lemma traversal_step_unvisited (st st' : St) :
  traversal_step st st' -> unvisited st'.1.1 st'.1.2 <= unvisited st.1.1 st.1.2.
Proof.
  intros [Hsub Hdom]. unfold unvisited. rewrite Hdom.
  apply subseteq_size. intros x [Hx Hnx]%elem_of_difference.
  apply elem_of_difference. split; [done|]. intros Hv. by apply Hnx, Hsub.
Qed.

(** A loop over the children returns when each call of its body does. *)
Lemma range_children_total (fuel : nat)
    (body : nat -> string -> St -> option (St * option E)) :
  (forall i dep st, unvisited st.1.1 st.1.2 < fuel ->
     exists st' err, body i dep st = Some (st', err) /\ traversal_step st st') ->
  forall dependencies i st,
    unvisited st.1.1 st.1.2 < fuel ->
    exists st' err,
      range_children body i dependencies st = Some (st', err) /\ traversal_step st st'.
Proof.
  intros Hbody. induction dependencies as [|dep rest IH]; intros i st Hlt; simpl.
  - exists st, None. split; [done|apply traversal_step_refl].
  - destruct (Hbody i dep st Hlt) as (st1 & err & -> & Hstep).
    destruct err as [err|].
    + by exists st1, (Some err).
    + pose proof (traversal_step_unvisited _ _ Hstep) as Hle.
      destruct (IH (S i) st1 ltac:(lia)) as (st2 & err & -> & Hstep2).
      exists st2, err. split; [done|]. by eapply traversal_step_trans.
Qed.

(** [renderNode] returns as soon as its fuel exceeds the number of nodes
    left to expand. *)
Lemma renderNode_total (fuel : nat) :
  forall nodeKey prefix isLast (st : St),
    unvisited st.1.1 st.1.2 < fuel ->
    exists st' err,
      renderNode Write fuel nodeKey prefix isLast st = Some (st', err)
      /\ traversal_step st st'.
Proof.
  induction fuel as [|fuel IH]; intros nodeKey prefix isLast [[g visited] w] Hlt;
    simpl in Hlt; [lia|].
  rewrite renderNode_S.
  destruct (Write w _) as [w1 [err|]].
  { eexists _, _. split; [done|by split]. }
  destruct (decide (nodeKey ∈ visited)) as [Hv|Hv].
  { eexists _, _. split; [done|by split]. }
  cbv zeta.
  set (g1 := buildTree g). set (se := sort_entry (tree g1) nodeKey).
  set (g2 := mkGraph (MainModule g1) (Dependencies g1) se.2).
  assert (Hbuilt : buildTree g2 = g2) by apply sorted_graph_built.
  assert (Hdom : dom (tree (buildTree g2)) = dom (tree (buildTree g))).
  { rewrite Hbuilt. unfold g2, se. simpl. apply sort_entry_dom. }
  assert (Hstep0 : traversal_step (g, visited, w) (g2, {[nodeKey]} ∪ visited, w1)).
  { split; simpl; [apply union_subseteq_r|exact Hdom]. }
  destruct (decide (nodeKey ∈ dom (tree g1))) as [Hk|Hk].
  - assert (Hlt2 : unvisited g2 ({[nodeKey]} ∪ visited) < fuel).
    { unfold unvisited in *. rewrite Hdom.
      assert (Hsub : dom (tree (buildTree g)) ∖ ({[nodeKey]} ∪ visited)
                     ⊂ dom (tree (buildTree g)) ∖ visited).
      { apply strict_spec_alt. split.
        - intros x [Hx Hnx]%elem_of_difference. apply elem_of_difference.
          split; [done|]. intros Hin. by apply Hnx, elem_of_union_r.
        - intros Heq.
          assert (Hin : nodeKey ∈ dom (tree (buildTree g)) ∖ visited)
            by (by apply elem_of_difference).
          rewrite <- Heq in Hin. apply elem_of_difference in Hin as [_ Hn].
          apply Hn, elem_of_union_l. by apply elem_of_singleton. }
      apply subset_size in Hsub. lia. }
    destruct (range_children_total fuel
                (fun i dep => renderNode Write fuel dep (newPrefix_of prefix isLast)
                                (Nat.eqb i (length se.1 - 1)))
                (fun i dep st Hst => IH dep _ _ st Hst)
                se.1 0 (g2, {[nodeKey]} ∪ visited, w1) Hlt2)
      as (st' & err & Hrun & Hstep).
    exists st', err. split; [exact Hrun|]. by eapply traversal_step_trans.
  - unfold se. rewrite (sort_entry_missing _ _ Hk). simpl.
    eexists _, _. split; [done|].
    fold g1. replace (mkGraph (MainModule g1) (Dependencies g1) (tree g1)) with g2; [done|].
    unfold g2, se. by rewrite (sort_entry_missing _ _ Hk).
Qed.

Lemma range_children_mono
    (body1 body2 : nat -> string -> St -> option (St * option E)) :
  (forall i dep st r, body1 i dep st = Some r -> body2 i dep st = Some r) ->
  forall dependencies i st r,
    range_children body1 i dependencies st = Some r ->
    range_children body2 i dependencies st = Some r.
Proof.
  intros Hbody. induction dependencies as [|dep rest IH]; intros i st r; simpl; [done|].
  destruct (body1 i dep st) as [[st1 err]|] eqn:H1; [|done].
  rewrite (Hbody _ _ _ _ H1). destruct err; [done|]. apply IH.
Qed.

(** More fuel does not change what [renderNode] returns. *)
Lemma renderNode_mono (fuel : nat) :
  forall fuel' nodeKey prefix isLast (st : St) r,
    fuel <= fuel' ->
    renderNode Write fuel nodeKey prefix isLast st = Some r ->
    renderNode Write fuel' nodeKey prefix isLast st = Some r.
Proof.
  induction fuel as [|fuel IH]; intros fuel' nodeKey prefix isLast [[g visited] w] r Hle;
    [done|].
  destruct fuel' as [|fuel']; [lia|].
  rewrite !renderNode_S.
  destruct (Write w _) as [w1 [err|]]; [done|].
  destruct (decide (nodeKey ∈ visited)); [done|].
  cbv zeta. apply range_children_mono.
  intros i dep st r'. apply IH. lia.
Qed.

Lemma unvisited_empty (graph : DependencyGraph) :
  unvisited graph ∅ < depth_bound graph.
Proof.
  unfold unvisited, depth_bound. rewrite difference_empty_L, size_dom. lia.
Qed.

(** C4.  The plaintext renderer returns on every graph and into every
    writer, cyclic graphs and shared dependencies included, and the result
    is the one of every larger bound on the depth of the recursion; so does
    [renderNode] from any node, any graph and any set of visited nodes,
    once the bound exceeds the number of nodes left to expand.  On a node
    that is already visited [renderNode] writes the line of the node and
    returns: the graph and the visited set are as before and no child is
    rendered. *)
Theorem renderNode_terminates (graph : DependencyGraph) (writer : W) :
  (exists graph' visited' writer' err,
     PlaintextRender Write graph writer = Some (graph', writer', err)
     /\ forall fuel, depth_bound graph <= fuel ->
          PlaintextRender_fuel Write fuel graph writer
          = Some ((graph', visited', writer'), err))
  /\ (forall nodeKey prefix isLast g visited w,
        exists st' err, forall fuel, unvisited g visited < fuel ->
          renderNode Write fuel nodeKey prefix isLast (g, visited, w) = Some (st', err))
  /\ (forall fuel nodeKey prefix isLast g visited w,
        nodeKey ∈ visited ->
        renderNode Write (S fuel) nodeKey prefix isLast (g, visited, w)
        = Some ((g, visited,
                 (Write w (prefix +:+ connector_of prefix isLast +:+ nodeKey +:+ nl)).1),
                (Write w (prefix +:+ connector_of prefix isLast +:+ nodeKey +:+ nl)).2)).
Proof.
  split; [|split].
  - destruct (renderNode_total (depth_bound graph) (Module_String (MainModule graph))
                "" true (graph, ∅, writer) (unvisited_empty graph))
      as ([[graph' visited'] writer'] & err & Hrun & _).
    exists graph', visited', writer', err. split.
    + unfold PlaintextRender, PlaintextRender_fuel. by rewrite Hrun.
    + intros fuel Hle. unfold PlaintextRender_fuel.
      by apply (renderNode_mono (depth_bound graph)).
  - intros nodeKey prefix isLast g visited w.
    destruct (renderNode_total (S (unvisited g visited)) nodeKey prefix isLast
                (g, visited, w) ltac:(simpl; lia))
      as (st' & err & Hrun & _).
    exists st', err. intros fuel Hlt.
    apply (renderNode_mono (S (unvisited g visited))); [lia|exact Hrun].
  - intros fuel nodeKey prefix isLast g visited w Hv.
    rewrite renderNode_S.
    destruct (Write w _) as [w1 [err|]]; [done|].
    by rewrite decide_True.
Qed.

End Plaintext.

(** The plaintext rendering of the graph of the tests, and of a graph with
    a cycle: the root met again below [b] is printed and not expanded. *)
Lemma PlaintextRender_examples :
  (Renderer.PlaintextRender Renderer.Buffer_Write createTestGraph []
   ≫= fun r => Some (r.1.2, r.2))
  = Some (["github.com/example/main" +:+ nl;
           "  ├── github.com/dep1@v1.0.0" +:+ nl;
           "  │   └── github.com/subdep@v1.0.0" +:+ nl;
           "  └── github.com/dep2@v2.0.0" +:+ nl], None)
  /\ (Renderer.PlaintextRender Renderer.Buffer_Write cyclic_graph []
      ≫= fun r => Some (r.1.2, r.2))
     = Some (["a" +:+ nl; "  ├── b" +:+ nl; "  │   └── a" +:+ nl; "  └── c" +:+ nl], None).
Proof. split; vm_compute; reflexivity. Qed.

(** ** Strings *)

Section StringFacts.

Lemma app_String (c : ascii) (s t : string) : String c s +:+ t = String c (s +:+ t).
Proof. reflexivity. Qed.

Lemma string_app_assoc (a b c : string) : (a +:+ b) +:+ c = a +:+ (b +:+ c).
Proof. induction a as [|x a IH]; [done|]. by rewrite !app_String, IH. Qed.

Lemma prefix_empty (s : string) : String.prefix "" s = true.
Proof. by destruct s. Qed.

(** Replacing a one-byte pattern, byte by byte. *)
Lemma ReplaceAll_cons (a c : ascii) (new s : string) :
  ReplaceAll (String c s) (String a "") new
  = if Ascii.eqb c a then new +:+ ReplaceAll s (String a "") new
    else String c (ReplaceAll s (String a "") new).
Proof.
  unfold ReplaceAll. simpl.
  destruct (Ascii.ascii_dec a c) as [->|Hne].
  - by rewrite prefix_empty, Ascii.eqb_refl.
  - destruct (Ascii.eqb_spec c a) as [->|_]; [done|]. done.
Qed.

Lemma ReplaceAll_empty (old new : string) : ReplaceAll "" old new = "".
Proof. reflexivity. Qed.

Lemma ReplaceAll_byte (a b : ascii) (s : string) :
  ReplaceAll s (String a "") (String b "")
  = map_bytes (fun c => if Ascii.eqb c a then b else c) s.
Proof.
  induction s as [|c s IH]; [done|].
  rewrite ReplaceAll_cons, IH. simpl. by destruct (Ascii.eqb c a).
Qed.

Lemma sanitize_byte_steps (c : ascii) :
  (fun c => if Ascii.eqb c "-" then "_"%char else c)
    ((fun c => if Ascii.eqb c "@" then "_"%char else c)
       ((fun c => if Ascii.eqb c "." then "_"%char else c)
          ((fun c => if Ascii.eqb c "/" then "_"%char else c) c)))
  = sanitize_byte c.
Proof. destruct c as [[] [] [] [] [] [] [] []]; reflexivity. Qed.

Lemma sanitizeNodeID_bytes (s : string) :
  Renderer.sanitizeNodeID s = map_bytes sanitize_byte s.
Proof.
  unfold Renderer.sanitizeNodeID. rewrite !ReplaceAll_byte.
  induction s as [|c s IH]; [done|].
  simpl. by rewrite IH, sanitize_byte_steps.
Qed.

End StringFacts.

(** ** Writers *)

Section WriterFacts.
Import Renderer.
Context {W E : Type} (Write : W -> string -> W * option E).

Lemma and_then_ret (r : W * option E) : and_then r (fun w => (w, None)) = r.
Proof. by destruct r as [w [err|]]. Qed.

Lemma and_then_assoc (r : W * option E) (k1 k2 : W -> W * option E) :
  and_then (and_then r k1) k2 = and_then r (fun w => and_then (k1 w) k2).
Proof. by destruct r as [w [err|]]. Qed.

Lemma write_each_app (l1 l2 : list string) (w : W) :
  write_each Write (l1 ++ l2) w = and_then (write_each Write l1 w) (write_each Write l2).
Proof.
  revert w. induction l1 as [|text l1 IH]; intros w; simpl; [done|].
  rewrite and_then_assoc. destruct (Write w text) as [w1 [err|]]; simpl; [done|]. apply IH.
Qed.

Lemma GraphvizRender_lines (graph : DependencyGraph) (w : W) :
  GraphvizRender Write graph w = write_each Write (Graphviz_lines graph) w.
Proof.
  unfold GraphvizRender, Graphviz_lines. simpl.
  destruct (Write w _) as [w1 [err|]]; simpl; [done|].
  destruct (Write w1 _) as [w2 [err|]]; simpl; [done|].
  destruct (Write w2 _) as [w3 [err|]]; simpl; [done|].
  rewrite write_each_app.
  destruct (write_each Write (Graphviz_node_line graph <$> _) w3) as [w4 [err|]];
    simpl; [done|].
  rewrite write_each_app.
  destruct (write_each Write (Graphviz_edge_line <$> _) w4) as [w5 [err|]];
    simpl; [done|].
  by rewrite and_then_ret.
Qed.

End WriterFacts.

Lemma write_each_Buffer (texts buf : list string) :
  Renderer.write_each Renderer.Buffer_Write texts buf = (buf ++ texts, None).
Proof.
  revert buf. induction texts as [|text texts IH]; intros buf; simpl.
  - by rewrite app_nil_r.
  - rewrite IH. by rewrite <- app_assoc.
Qed.

(** ** The graph-description renderer *)

Section Highlight.
Import Renderer.

Lemma bytes_app (a b : string) :
  list_ascii_of_string (a +:+ b) = list_ascii_of_string a ++ list_ascii_of_string b.
Proof. induction a as [|c a IH]; [done|]. rewrite app_String. simpl. by rewrite IH. Qed.

Lemma first_split_unique (x : ascii) (l1 : list ascii) :
  forall l2 r1 r2, l1 ++ x :: r1 = l2 ++ x :: r2 -> x ∉ l1 -> x ∉ l2 -> l1 = l2 /\ r1 = r2.
Proof.
  induction l1 as [|a l1 IH]; intros [|b l2] r1 r2 Heq H1 H2; simpl in Heq.
  - by injection Heq.
  - injection Heq as -> _. exfalso. apply H2. left.
  - injection Heq as -> _. exfalso. apply H1. left.
  - injection Heq as -> Heq.
    apply not_elem_of_cons in H1 as [_ H1]. apply not_elem_of_cons in H2 as [_ H2].
    destruct (IH _ _ _ Heq H1 H2) as [-> ->]. done.
Qed.


Lemma split_at_first (x : ascii) (R X Y T : list ascii) :
  x ∉ T -> R ++ x :: X = T ++ x :: Y ->
  (R = T /\ X = Y) \/ (exists R2, R = T ++ x :: R2 /\ Y = R2 ++ x :: X).
Proof.
  intros HT Heq. destruct (decide (x ∈ R)) as [Hin|Hnin].
  - apply list_elem_of_split_l in Hin as (R1 & R2 & -> & Hnin).
    rewrite <- app_assoc in Heq. simpl in Heq.
    destruct (first_split_unique x R1 T _ _ Heq Hnin HT) as [-> <-].
    right. by exists R2.
  - left. by apply (first_split_unique x R T).
Qed.

Lemma escaped_quote_preceded (s : string) (pre post : list ascii) :
  list_ascii_of_string (ReplaceAll s dq (bs +:+ dq)) = pre ++ "034"%char :: post ->
  exists pre', pre = pre' ++ ["092"%char].
Proof.
  revert pre. induction s as [|c s IH]; intros pre Heq.
  - rewrite ReplaceAll_empty in Heq. by destruct pre.
  - unfold dq in Heq at 1. rewrite ReplaceAll_cons in Heq. fold dq in Heq.
    destruct (Ascii.eqb_spec c "034") as [->|Hne].
    + rewrite bytes_app in Heq. simpl in Heq.
      destruct pre as [|a [|b pre]]; simpl in Heq.
      * discriminate Heq.
      * injection Heq as <- _. by exists [].
      * injection Heq as <- <- Heq. destruct (IH _ Heq) as [pre' ->].
        by exists ("092"%char :: "034"%char :: pre').
    + simpl in Heq. destruct pre as [|a pre]; simpl in Heq.
      * injection Heq as Hc _. done.
      * injection Heq as <- Heq. destruct (IH _ Heq) as [pre' ->].
        by exists (c :: pre').
Qed.

Lemma plain_not_highlighted (id s : string) :
  ¬ carries_highlight (Graphviz_plain id (ReplaceAll s dq (bs +:+ dq))).
Proof.
  intros [front H]. unfold Graphviz_plain, highlight_attrs in H.
  apply (f_equal (fun s => rev (list_ascii_of_string s))) in H.
  rewrite !bytes_app, !rev_app_distr in H. simpl in H.
  rewrite <- !app_assoc in H. simpl in H.
  injection H as H.
  apply (split_at_first "034" _ _ _ (list_ascii_of_string "dellif,dednuor")) in H.
  - destruct H as [[_ H]|(R2 & HR & HY)].
    + discriminate H.
    + apply (f_equal (@rev ascii)) in HR. rewrite rev_involutive in HR.
      rewrite rev_app_distr in HR. simpl in HR. rewrite <- !app_assoc in HR. simpl in HR.
      apply escaped_quote_preceded in HR as [pre' Hpre].
      apply (f_equal (@rev ascii)) in Hpre. rewrite rev_involutive, rev_app_distr in Hpre.
      simpl in Hpre. subst R2. discriminate HY.
  - intros Hin. repeat (apply elem_of_cons in Hin as [Hin|Hin]; [discriminate Hin|]).
    by apply elem_of_nil in Hin.
Qed.

Lemma highlighted_carries (id lab : string) : carries_highlight (Graphviz_highlighted id lab).
Proof.
  exists ("    " +:+ dq +:+ id +:+ dq +:+ " [label=" +:+ dq +:+ lab +:+ dq).
  unfold Graphviz_highlighted, highlight_attrs. by rewrite !string_app_assoc.
Qed.

(** C9.  The node identifier of the graph-description renderer is the
    canonical string with every slash, dot, at sign and hyphen replaced by
    an underscore; the renderer writes its three header lines, one
    declaration per module in the sorted order of [GetAllModules], one line
    per edge and the closing brace; each declaration is made of the
    sanitized identifier and the escaped label; a declaration carries the
    highlighting attributes exactly when its module has the canonical
    string of the root, which is the case of exactly one module. *)
Theorem Graphviz_node_declarations (graph : DependencyGraph) :
  (forall s, sanitizeNodeID s = map_bytes sanitize_byte s)
  /\ sanitizeNodeID "github.com/example/module@v1.2.3" = "github_com_example_module_v1_2_3"
  /\ (forall (W E : Type) (Write : W -> string -> W * option E) (w : W),
        GraphvizRender Write graph w = write_each Write (Graphviz_lines graph) w)
  /\ (forall buf, GraphvizRender Buffer_Write graph buf = (buf ++ Graphviz_lines graph, None))
  /\ StronglySorted (fun a b => String.ltb a b = true)
       (Module_String <$> GetAllModules graph)
  /\ (forall m, exists rest,
        Graphviz_node_line graph m
        = "    " +:+ dq +:+ sanitizeNodeID (Module_String m) +:+ dq +:+ " [label=" +:+ dq
            +:+ ReplaceAll (Module_String m) dq (bs +:+ dq) +:+ dq +:+ rest)
  /\ (forall m, carries_highlight (Graphviz_node_line graph m)
                <-> Module_String m = Module_String (MainModule graph))
  /\ length (with_key (Module_String (MainModule graph)) (GetAllModules graph)) = 1.
Proof.
  split; [apply sanitizeNodeID_bytes|]. split; [vm_compute; reflexivity|].
  split; [intros W E Write w; apply GraphvizRender_lines|].
  split; [intros buf; by rewrite GraphvizRender_lines, write_each_Buffer|].
  split; [apply (ranged_sorted graph _ (range_order_self _))|].
  split; [|split].
  - intros m. unfold Graphviz_node_line.
    destruct (String.eqb _ _); eexists; reflexivity.
  - intros m. unfold Graphviz_node_line.
    destruct (String.eqb_spec (Module_String m) (Module_String (MainModule graph)))
      as [Heq|Hne].
    + split; [done|]. intros _. apply highlighted_carries.
    + split; [|done]. intros H. by apply plain_not_highlighted in H.
  - apply one_with_key; [apply GetAllModules_NoDup|].
    apply GetAllModules_strings. unfold graphModules. rewrite fmap_cons. left.
Qed.

End Highlight.

(** ** What the renderers do keep *)

Section Frame.
Import Renderer.
Context {W E : Type} (Write : W -> string -> W * option E).
Local Abbreviation St := (PState (W := W)).

Lemma range_children_inv (P : St -> Prop)
    (body : nat -> string -> St -> option (St * option E)) :
  (forall i dep st r, P st -> body i dep st = Some r -> P r.1) ->
  forall dependencies i st r,
    P st -> range_children body i dependencies st = Some r -> P r.1.
Proof.
  intros Hbody. induction dependencies as [|dep rest IH]; intros i st r HP; simpl.
  - by intros [= <-].
  - destruct (body i dep st) as [[st1 err]|] eqn:H1; [|done].
    pose proof (Hbody _ _ _ _ HP H1) as HP1. simpl in HP1.
    destruct err; [by intros [= <-]|]. by apply IH.
Qed.

(** [renderNode] leaves the root and the dependency sequence alone. *)
Lemma renderNode_frame (root : GoModule) (deps : list Dependency) (fuel : nat) :
  forall nodeKey prefix isLast (st : St) r,
    MainModule st.1.1 = root /\ Dependencies st.1.1 = deps ->
    renderNode Write fuel nodeKey prefix isLast st = Some r ->
    MainModule r.1.1.1 = root /\ Dependencies r.1.1.1 = deps.
Proof.
  induction fuel as [|fuel IH]; intros nodeKey prefix isLast [[g visited] w] r HP; [done|].
  rewrite renderNode_S.
  destruct (Write w _) as [w1 [err|]]; [by intros [= <-]|].
  destruct (decide (nodeKey ∈ visited)); [by intros [= <-]|].
  cbv zeta.
  apply (range_children_inv
           (fun st => MainModule st.1.1 = root /\ Dependencies st.1.1 = deps)).
  - intros i dep st r'. apply IH.
  - simpl in *. by rewrite MainModule_buildTree, Dependencies_buildTree.
Qed.

Lemma PlaintextRender_frame (graph graph' : DependencyGraph) (w w' : W) (err : option E) :
  PlaintextRender Write graph w = Some (graph', w', err) ->
  MainModule graph' = MainModule graph /\ Dependencies graph' = Dependencies graph.
Proof.
  unfold PlaintextRender, PlaintextRender_fuel.
  destruct (renderNode _ _ _ _ _ _) as [[[[g1 v1] w1] e1]|] eqn:Hrun; [|done].
  intros [= <- <- <-].
  by apply (renderNode_frame _ _ _ _ _ _ _ _ (conj eq_refl eq_refl) Hrun).
Qed.

End Frame.

(** ** The flowchart renderer *)

Section Mermaid.
Import Renderer.

Lemma nodeID_fold_miss (l : list GoModule) :
  forall (acc : gmap string string * nat) (k : string),
    k ∉ Module_String <$> l -> (fold_left nodeID_step l acc).1 !! k = acc.1 !! k.
Proof.
  induction l as [|m l IH]; intros acc k Hk; simpl; [done|].
  rewrite fmap_cons in Hk. apply not_elem_of_cons in Hk as [Hne Hk].
  rewrite IH by done. simpl. by rewrite lookup_insert_ne.
Qed.

Lemma nodeID_fold_hit (l : list GoModule) :
  forall (acc : gmap string string * nat) (j : nat) (m : GoModule),
    NoDup (Module_String <$> l) -> l !! j = Some m ->
    (fold_left nodeID_step l acc).1 !! Module_String m = Some ("N" +:+ itoa (acc.2 + j)).
Proof.
  induction l as [|m0 l IH]; intros acc j m Hnd Hj; [done|].
  rewrite fmap_cons in Hnd. apply NoDup_cons in Hnd as [Hnotin Hnd].
  destruct j as [|j]; simpl in *.
  - injection Hj as ->. rewrite nodeID_fold_miss by done. simpl.
    rewrite lookup_insert_eq. do 3 f_equal. lia.
  - rewrite (IH _ j m Hnd Hj). simpl. do 3 f_equal. lia.
Qed.

(** The identifiers are numbered along the sorted module sequence. *)
Lemma Mermaid_nodeIDs_sorted (graph : DependencyGraph) (j : nat) (m : GoModule) :
  GetAllModules graph !! j = Some m ->
  Mermaid_nodeIDs graph !! Module_String m = Some ("N" +:+ itoa (S j)).
Proof.
  intros Hj. unfold Mermaid_nodeIDs.
  by rewrite (nodeID_fold_hit _ _ j m (GetAllModules_NoDup graph) Hj).
Qed.

(** Every run writes the same declarations; only their order is open. *)
Lemma MermaidRender_lines_perm (graph : DependencyGraph)
    (order1 order2 : list (string * string)) :
  range_order (Mermaid_nodeIDs graph) order1 ->
  range_order (Mermaid_nodeIDs graph) order2 ->
  Mermaid_node_line <$> order1 ≡ₚ Mermaid_node_line <$> order2.
Proof.
  unfold range_order. intros H1 H2. apply fmap_Permutation. by rewrite H1, H2.
Qed.

End Mermaid.

(** * Further properties of the graph store *)

Section GraphStoreMore.

Lemma GetAllModules_elem (dg : DependencyGraph) (m : GoModule) :
  m ∈ GetAllModules dg <-> last (with_key (Module_String m) (graphModules dg)) = Some m.
Proof.
  unfold GetAllModules. rewrite (ranged_elem dg _ m (range_order_self _)).
  by rewrite moduleSet_lookup.
Qed.

(** X1.  Of the modules of the graph that share a canonical string,
    [GetAllModules] returns the one written last into the module set, the
    order of writing being the root, then the [from] and the [to] of each
    edge in insertion order; a module of the graph that shares its
    canonical string with no other is returned as it is. *)
Theorem GetAllModules_last_writer (dg : DependencyGraph) (m : GoModule) :
  (m ∈ GetAllModules dg
   <-> last (with_key (Module_String m) (graphModules dg)) = Some m)
  /\ (m ∈ graphModules dg ->
      (forall m', m' ∈ graphModules dg -> Module_String m' = Module_String m -> m' = m) ->
      m ∈ GetAllModules dg)
  /\ (forall from to, to ∈ GetAllModules (AddDependency dg from to)).
Proof.
  split; [apply GetAllModules_elem|]. split.
  - intros Hin Huniq. apply GetAllModules_elem.
    destruct (last (with_key (Module_String m) (graphModules dg))) as [m'|] eqn:Hlast.
    + apply last_Some_elem_of in Hlast. unfold with_key in Hlast.
      apply list_elem_of_filter in Hlast as [Hk Hm']. by rewrite (Huniq m' Hm' Hk).
    + apply last_None in Hlast.
      assert (Hm : m ∈ with_key (Module_String m) (graphModules dg)).
      { unfold with_key. by apply list_elem_of_filter. }
      rewrite Hlast in Hm. by apply elem_of_nil in Hm.
  - intros from to. apply GetAllModules_elem.
    unfold graphModules, AddDependency, with_key. simpl.
    rewrite flat_map_app. simpl. rewrite app_comm_cons, filter_app, last_app.
    rewrite !filter_cons, filter_nil.
    destruct (decide (Module_String to = Module_String to)) as [_|Hne]; [|done].
    by destruct (decide (Module_String from = Module_String to)).
Qed.

Lemma graphModules_length (dg : DependencyGraph) :
  length (graphModules dg) = 1 + 2 * length (Dependencies dg).
Proof.
  unfold graphModules. simpl. f_equal.
  induction (Dependencies dg) as [|d deps IH]; simpl; [done|]. rewrite IH. lia.
Qed.

(** X2.  [GetAllModules] returns as many modules as the graph has distinct
    canonical strings among its root and the ends of its edges: at least
    one, and at most one more than twice the number of edges. *)
Theorem GetAllModules_count (dg : DependencyGraph) :
  length (GetAllModules dg) = length (remove_dups (Module_String <$> graphModules dg))
  /\ 1 <= length (GetAllModules dg)
  /\ length (GetAllModules dg) <= 1 + 2 * length (Dependencies dg).
Proof.
  assert (Hlen := GetAllModules_length dg). split; [exact Hlen|]. split.
  - assert (Hroot : Module_String (MainModule dg) ∈ Module_String <$> GetAllModules dg).
    { apply GetAllModules_strings. unfold graphModules. rewrite fmap_cons. left. }
    destruct (GetAllModules dg); [by apply elem_of_nil in Hroot|simpl; lia].
  - rewrite Hlen, <- graphModules_length, <- (length_fmap Module_String (graphModules dg)).
    apply submseteq_length, NoDup_submseteq; [apply NoDup_remove_dups|].
    intros s. by rewrite elem_of_remove_dups.
Qed.

(** X3.  [AddDependency] keeps the root and the edges already there, and
    the module set of the new graph is the one of the old graph together
    with the two ends of the new edge: no canonical string is lost, at most
    two are gained. *)
Theorem AddDependency_modules (dg : DependencyGraph) (from to : GoModule) :
  MainModule (AddDependency dg from to) = MainModule dg
  /\ Dependencies (AddDependency dg from to) = Dependencies dg ++ [mkDependency from to]
  /\ (forall s, s ∈ Module_String <$> GetAllModules (AddDependency dg from to)
                <-> s ∈ Module_String <$> GetAllModules dg
                    \/ s = Module_String from \/ s = Module_String to)
  /\ length (GetAllModules dg) <= length (GetAllModules (AddDependency dg from to))
     <= 2 + length (GetAllModules dg).
Proof.
  split; [done|]. split; [done|].
  assert (Hstr : forall s, s ∈ Module_String <$> GetAllModules (AddDependency dg from to)
                <-> s ∈ Module_String <$> GetAllModules dg
                    \/ s = Module_String from \/ s = Module_String to).
  { intros s. rewrite !GetAllModules_strings. unfold graphModules, AddDependency.
    cbn [MainModule Dependencies]. rewrite flat_map_app. cbn [flat_map app].
    rewrite !fmap_cons, fmap_app, !fmap_cons, fmap_nil.
    rewrite !elem_of_cons, elem_of_app, !elem_of_cons, elem_of_nil. tauto. }
  split; [exact Hstr|].
  rewrite <- !(length_fmap Module_String). split.
  - apply submseteq_length, NoDup_submseteq; [apply GetAllModules_NoDup|].
    intros s Hs. apply Hstr. by left.
  - change (2 + length (Module_String <$> GetAllModules dg))
      with (length ([Module_String from; Module_String to]
                    ++ (Module_String <$> GetAllModules dg))).
    apply submseteq_length, NoDup_submseteq; [apply GetAllModules_NoDup|].
    intros s Hs. apply Hstr in Hs. rewrite elem_of_app, !elem_of_cons, elem_of_nil. tauto.
Qed.

(** X4.  On a graph whose cache is empty or built, the canonical strings of
    the direct dependencies of a module are the entry of its canonical
    string in the map of [GetTree], and the empty list when the map has no
    such entry: the two queries of the store agree. *)
Theorem GetDirectDependencies_agrees_with_GetTree (dg : DependencyGraph) (module : GoModule) :
  cache_ok dg ->
  Module_String <$> GetDirectDependencies dg module
  = default [] ((GetTree dg).1 !! Module_String module).
Proof.
  intros Hok. rewrite (GetTree_cache_ok dg Hok), adjacency_lookup.
  rewrite GetDirectDependencies_filter. unfold directDependenciesOf, adjacency_list.
  rewrite <- list_fmap_compose.
  by destruct (edges_from (Module_String module) (Dependencies dg)).
Qed.

Lemma GetDirectDependencies_agrees_with_GetTree_witness :
  cache_ok createTestGraph
  /\ Module_String <$> GetDirectDependencies createTestGraph (mkModule "github.com/example/main" "")
     = default [] ((GetTree createTestGraph).1 !! "github.com/example/main").
Proof.
  assert (Hok : cache_ok createTestGraph) by (left; reflexivity).
  split; [exact Hok|].
  exact (GetDirectDependencies_agrees_with_GetTree createTestGraph
           (mkModule "github.com/example/main" "") Hok).
Defined.

(** X5.  [GetTree] is memoized in every state of the graph: a second call
    returns the map of the first and leaves the graph as the first call
    left it, and no call changes the root, the edges, or what
    [GetAllModules] and [GetDirectDependencies] return. *)
Theorem GetTree_memoized (dg : DependencyGraph) :
  GetTree (GetTree dg).2 = GetTree dg
  /\ MainModule (GetTree dg).2 = MainModule dg
  /\ Dependencies (GetTree dg).2 = Dependencies dg
  /\ GetAllModules (GetTree dg).2 = GetAllModules dg
  /\ (forall module, GetDirectDependencies (GetTree dg).2 module
                     = GetDirectDependencies dg module).
Proof.
  unfold GetTree. cbn [fst snd].
  split; [by rewrite buildTree_idem|].
  split; [apply MainModule_buildTree|]. split; [apply Dependencies_buildTree|]. split.
  - unfold GetAllModules, moduleSet.
    by rewrite MainModule_buildTree, Dependencies_buildTree.
  - intros module. unfold GetDirectDependencies. by rewrite Dependencies_buildTree.
Qed.

(** X6.  On a graph whose cache is empty or built, the keys of the map of
    [GetTree] are the canonical strings of the modules with an outgoing
    edge: a module that is only ever a [to] has no entry, no entry is an
    empty list, and an entry has one element per edge leaving its key. *)
Theorem GetTree_keys (dg : DependencyGraph) (k : string) :
  cache_ok dg ->
  (k ∈ dom (GetTree dg).1
   <-> exists dep, dep ∈ Dependencies dg /\ Module_String (From_ dep) = k)
  /\ (forall l, (GetTree dg).1 !! k = Some l ->
        l <> [] /\ length l = length (edges_from k (Dependencies dg)))
  /\ ((forall dep, dep ∈ Dependencies dg -> Module_String (From_ dep) <> k) ->
      (GetTree dg).1 !! k = None).
Proof.
  intros Hok. rewrite (GetTree_cache_ok dg Hok).
  assert (Hmem : forall dep, dep ∈ edges_from k (Dependencies dg)
                 <-> Module_String (From_ dep) = k /\ dep ∈ Dependencies dg).
  { intros dep. unfold edges_from. by rewrite list_elem_of_filter. }
  split; [|split].
  - rewrite elem_of_dom, adjacency_lookup. split.
    + destruct (edges_from k (Dependencies dg)) as [|d ds]; [by intros [? ?]|].
      intros _. exists d. apply and_comm, Hmem. left.
    + intros (dep & Hin & Hk).
      assert (Hd : dep ∈ edges_from k (Dependencies dg)) by (by apply Hmem).
      destruct (edges_from k (Dependencies dg)); [by apply elem_of_nil in Hd|done].
  - intros l. rewrite adjacency_lookup. unfold adjacency_list.
    pose proof (length_fmap (fun dep => Module_String (To dep))
                  (edges_from k (Dependencies dg))) as Hlen.
    destruct (edges_from k (Dependencies dg)) as [|d ds]; [done|].
    intros [= <-]. split; [done|exact Hlen].
  - intros Hnone. rewrite adjacency_lookup.
    destruct (edges_from k (Dependencies dg)) as [|d ds]; [done|].
    exfalso. assert (Hd : d ∈ d :: ds) by left.
    apply Hmem in Hd as [Hk Hin]. by apply (Hnone d).
Qed.

Lemma GetTree_keys_witness :
  cache_ok createTestGraph
  /\ (GetTree createTestGraph).1 !! "github.com/subdep@v1.0.0" = None.
Proof.
  assert (Hok : cache_ok createTestGraph) by (left; reflexivity).
  split; [exact Hok|].
  apply (proj2 (proj2 (GetTree_keys createTestGraph "github.com/subdep@v1.0.0" Hok))).
  intros dep Hin. unfold createTestGraph in Hin. simpl in Hin.
  repeat (apply elem_of_cons in Hin as [->|Hin]; [discriminate|]).
  by apply elem_of_nil in Hin.
Defined.

End GraphStoreMore.

(** * Further properties of the escaping of names *)

Section Escaping.
Import Renderer.

Lemma map_bytes_app (f : ascii -> ascii) (a b : string) :
  map_bytes f (a +:+ b) = map_bytes f a +:+ map_bytes f b.
Proof. induction a as [|c a IH]; [done|]. rewrite app_String. simpl. by rewrite IH. Qed.

Lemma map_bytes_length (f : ascii -> ascii) (s : string) :
  String.length (map_bytes f s) = String.length s.
Proof. induction s as [|c s IH]; [done|]. simpl. by rewrite IH. Qed.

Lemma sanitize_byte_idem (c : ascii) : sanitize_byte (sanitize_byte c) = sanitize_byte c.
Proof. destruct c as [[] [] [] [] [] [] [] []]; reflexivity. Qed.

Lemma sanitize_byte_clean (c : ascii) :
  sanitize_byte c <> "/"%char /\ sanitize_byte c <> "."%char
  /\ sanitize_byte c <> "@"%char /\ sanitize_byte c <> "-"%char.
Proof. destruct c as [[] [] [] [] [] [] [] []]; repeat split; discriminate. Qed.

(** X7.  [sanitizeNodeID] keeps the length of its argument, leaves none of
    the slash, dot, at sign and hyphen in its result, and changes nothing
    when applied again; it is not injective: two names that differ only by
    which of these four bytes, or an underscore, stands at one place get
    the same identifier. *)
Theorem sanitizeNodeID_facts (s : string) :
  String.length (sanitizeNodeID s) = String.length s
  /\ sanitizeNodeID (sanitizeNodeID s) = sanitizeNodeID s
  /\ ¬ has_byte "/" (sanitizeNodeID s) /\ ¬ has_byte "." (sanitizeNodeID s)
  /\ ¬ has_byte "@" (sanitizeNodeID s) /\ ¬ has_byte "-" (sanitizeNodeID s)
  /\ (forall s', sanitizeNodeID (s +:+ "." +:+ s') = sanitizeNodeID (s +:+ "_" +:+ s')
                 /\ sanitizeNodeID (s +:+ "-" +:+ s') = sanitizeNodeID (s +:+ "_" +:+ s')
                 /\ sanitizeNodeID (s +:+ "/" +:+ s') = sanitizeNodeID (s +:+ "_" +:+ s')
                 /\ sanitizeNodeID (s +:+ "@" +:+ s') = sanitizeNodeID (s +:+ "_" +:+ s')).
Proof.
  rewrite !sanitizeNodeID_bytes.
  assert (Hclean : forall c, has_byte c (map_bytes sanitize_byte s) ->
                     exists c0, c = sanitize_byte c0).
  { unfold has_byte. induction s as [|c0 s IH]; intros c Hc; simpl in Hc.
    - by apply elem_of_nil in Hc.
    - apply elem_of_cons in Hc as [->|Hc]; [by exists c0|by apply IH]. }
  split; [apply map_bytes_length|]. split.
  { induction s as [|c s IH]; [done|]. simpl. rewrite sanitize_byte_idem. f_equal.
    apply IH. intros c' Hc'. apply Hclean. unfold has_byte in *. simpl. by right. }
  repeat split;
    try (intros [c0 Hc0]%Hclean; by destruct (sanitize_byte_clean c0) as (?&?&?&?));
    rewrite !sanitizeNodeID_bytes, !map_bytes_app; reflexivity.
Qed.

Lemma ReplaceAll_app_byte (c : ascii) (new a b : string) :
  ReplaceAll (a +:+ b) (String c "") new
  = ReplaceAll a (String c "") new +:+ ReplaceAll b (String c "") new.
Proof.
  induction a as [|x a IH]; [done|].
  rewrite app_String, !ReplaceAll_cons, IH.
  destruct (Ascii.eqb x c); [by rewrite string_app_assoc|done].
Qed.

Lemma ReplaceAll_absent (c : ascii) (new s : string) :
  ¬ has_byte c s -> ReplaceAll s (String c "") new = s.
Proof.
  unfold has_byte. induction s as [|x s IH]; intros Hno; [done|].
  simpl in Hno. apply not_elem_of_cons in Hno as [Hne Hno].
  rewrite ReplaceAll_cons, (IH Hno).
  destruct (Ascii.eqb_spec x c) as [->|_]; [done|done].
Qed.

Lemma escaped_not_leading_quote (s : string) (post : list ascii) :
  list_ascii_of_string (ReplaceAll s dq (bs +:+ dq)) <> "034"%char :: post.
Proof.
  intros H. apply (escaped_quote_preceded s [] post) in H as [pre' Hpre].
  by destruct pre'.
Qed.

Lemma label_escape_inj (s1 : string) :
  forall s2, ReplaceAll s1 dq (bs +:+ dq) = ReplaceAll s2 dq (bs +:+ dq) -> s1 = s2.
Proof.
  unfold dq at 1 3. induction s1 as [|c1 s1 IH]; intros [|c2 s2] Heq.
  - done.
  - rewrite ReplaceAll_empty, ReplaceAll_cons in Heq.
    destruct (Ascii.eqb c2 "034"); discriminate Heq.
  - rewrite ReplaceAll_empty, ReplaceAll_cons in Heq.
    destruct (Ascii.eqb c1 "034"); discriminate Heq.
  - rewrite !ReplaceAll_cons in Heq.
    destruct (Ascii.eqb_spec c1 "034") as [->|H1];
      destruct (Ascii.eqb_spec c2 "034") as [->|H2].
    + injection Heq as Heq. f_equal. by apply IH.
    + injection Heq as <- Heq. exfalso.
      apply (f_equal list_ascii_of_string) in Heq. symmetry in Heq.
      by apply (escaped_not_leading_quote s2) in Heq.
    + injection Heq as -> Heq. exfalso.
      apply (f_equal list_ascii_of_string) in Heq.
      by apply (escaped_not_leading_quote s1) in Heq.
    + injection Heq as -> Heq. f_equal. by apply IH.
Qed.

(** X8.  The label of the flowchart and graph-description renderers: every
    double quote of the escaped label has a backslash in front of it, a
    name without double quotes is its own label (backslashes are left as
    they are), and two different names never get the same label. *)
Theorem label_escaping (s : string) :
  (forall pre post,
     list_ascii_of_string (ReplaceAll s dq (bs +:+ dq)) = pre ++ "034"%char :: post ->
     exists pre', pre = pre' ++ ["092"%char])
  /\ (¬ has_byte "034" s -> ReplaceAll s dq (bs +:+ dq) = s)
  /\ (forall s', ReplaceAll s dq (bs +:+ dq) = ReplaceAll s' dq (bs +:+ dq) -> s = s').
Proof.
  split; [apply escaped_quote_preceded|]. split.
  - apply ReplaceAll_absent.
  - apply label_escape_inj.
Qed.

(** X9.  The name field of [generateNodes] is the name with every double
    quote replaced by backslash, backslash, quote and every backslash by
    two backslashes; a name with neither byte is its own name field, and
    in a name without double quotes exactly the backslashes are doubled. *)
Theorem HTML_name_escaping (s : string) :
  ReplaceAll (ReplaceAll s dq (bs +:+ dq)) bs (bs +:+ bs) = expand_bytes html_name_byte s
  /\ (¬ has_byte "034" s -> ¬ has_byte "092" s ->
      ReplaceAll (ReplaceAll s dq (bs +:+ dq)) bs (bs +:+ bs) = s)
  /\ (¬ has_byte "034" s ->
      ReplaceAll (ReplaceAll s dq (bs +:+ dq)) bs (bs +:+ bs)
      = ReplaceAll s bs (bs +:+ bs)).
Proof.
  split; [|split].
  - unfold dq at 1, bs at 2. induction s as [|c s IH]; [done|].
    rewrite ReplaceAll_cons. unfold html_name_byte. simpl expand_bytes.
    destruct (Ascii.eqb_spec c "034") as [->|Hq].
    + rewrite ReplaceAll_app_byte, IH. reflexivity.
    + rewrite ReplaceAll_cons, IH.
      destruct (Ascii.eqb c "092"); reflexivity.
  - intros Hq Hb. unfold dq at 1. rewrite (ReplaceAll_absent _ _ _ Hq).
    unfold bs at 1. by apply ReplaceAll_absent.
  - intros Hq. unfold dq at 1. by rewrite (ReplaceAll_absent _ _ _ Hq).
Qed.

End Escaping.

(** * Further properties of the line renderers *)

Section WriteErrors.
Import Renderer.
Context {W E : Type} (Write : W -> string -> W * option E).

(** A loop of writes into a logged writer: the log grows by a prefix of the
    texts, the whole of them when no write fails, and up to the failed
    write otherwise. *)
Lemma write_each_logged (texts : list string) :
  forall (w : W) (log : list string),
  exists n,
    write_each (Logged_Write Write) texts (w, log)
    = (((write_each Write texts w).1, log ++ take n texts), (write_each Write texts w).2)
    /\ ((write_each Write texts w).2 = None -> n = length texts)
    /\ (forall err, (write_each Write texts w).2 = Some err ->
          exists i text wi,
            n = S i /\ texts !! i = Some text
            /\ Write wi text = ((write_each Write texts w).1, Some err)).
Proof.
  induction texts as [|text rest IH]; intros w log.
  - exists 0. simpl. rewrite app_nil_r. by repeat split.
  - cbn [write_each]. unfold Logged_Write at 1. cbn [fst snd].
    destruct (Write w text) as [w1 [err|]] eqn:Hw; cbn [fst snd and_then length].
    + exists 1. cbn [take]. rewrite take_0. split; [done|]. split; [done|].
      intros err' [= <-]. by exists 0, text, w.
    + destruct (IH w1 (log ++ [text])) as (n & Hrun & Hok & Herr).
      exists (S n). rewrite Hrun. cbn [take]. split; [by rewrite <- app_assoc|].
      split; [intros Hnone; by rewrite (Hok Hnone)|].
      intros err Hsome. destruct (Herr err Hsome) as (i & text' & wi & -> & Hi & Hwi).
      by exists (S i), text', wi.
Qed.

(** X10.  Error behaviour of the graph-description renderer, for every
    writer: the texts handed to the writer are the first lines of the
    output, in order; all of them when [Render] returns no error;
    otherwise [Render] returns the error of the last write it made and
    hands nothing more to the writer. *)
Theorem GraphvizRender_stops_at_error (graph : DependencyGraph) (w : W) :
  exists n,
    GraphvizRender (Logged_Write Write) graph (w, [])
    = (((GraphvizRender Write graph w).1, take n (Graphviz_lines graph)),
       (GraphvizRender Write graph w).2)
    /\ ((GraphvizRender Write graph w).2 = None -> n = length (Graphviz_lines graph))
    /\ (forall err, (GraphvizRender Write graph w).2 = Some err ->
          exists i text wi,
            n = S i /\ Graphviz_lines graph !! i = Some text
            /\ Write wi text = ((GraphvizRender Write graph w).1, Some err)).
Proof.
  rewrite !GraphvizRender_lines.
  destruct (write_each_logged (Graphviz_lines graph) w []) as (n & Hrun & Hok & Herr).
  exists n. by rewrite Hrun.
Qed.

End WriteErrors.

Section MermaidMore.
Import Renderer.

(** Reading back what [%d] printed. *)
Lemma itoa_read (n : nat) : Nat.of_uint <$> NilZero.uint_of_string (itoa n) = Some n.
Proof.
  unfold itoa. pose proof (DecimalNat.Unsigned.of_to n) as Hn.
  destruct (Nat.to_uint n) as [| | | | | | | | | |] eqn:Hd;
    try (rewrite NilZero.usu by discriminate; simpl; by rewrite Hn).
  simpl in *. by rewrite <- Hn.
Qed.

Lemma itoa_inj (n m : nat) : itoa n = itoa m -> n = m.
Proof.
  intros Heq. pose proof (itoa_read n) as Hn. rewrite Heq, itoa_read in Hn.
  by injection Hn.
Qed.

Lemma Mermaid_nodeIDs_lookup (graph : DependencyGraph) (k id : string) :
  Mermaid_nodeIDs graph !! k = Some id
  <-> exists j m, GetAllModules graph !! j = Some m
                  /\ k = Module_String m /\ id = "N" +:+ itoa (S j).
Proof.
  split.
  - intros Hk.
    destruct (decide (k ∈ Module_String <$> GetAllModules graph)) as [Hin|Hout].
    + apply list_elem_of_fmap in Hin as (m & -> & Hm).
      apply list_elem_of_lookup in Hm as [j Hj]. exists j, m.
      rewrite (Mermaid_nodeIDs_sorted graph j m Hj) in Hk. by injection Hk as <-.
    + unfold Mermaid_nodeIDs in Hk. rewrite (nodeID_fold_miss _ _ _ Hout) in Hk.
      simpl in Hk. by rewrite lookup_empty in Hk.
  - intros (j & m & Hj & -> & ->). by apply Mermaid_nodeIDs_sorted.
Qed.

Lemma MermaidRender_lines {W E : Type} (Write : W -> string -> W * option E)
    (order : list (string * string)) (graph : DependencyGraph) (w : W) :
  MermaidRender_ranged Write order graph w = write_each Write (Mermaid_lines order graph) w.
Proof.
  unfold MermaidRender_ranged, Mermaid_lines. cbn [write_each].
  destruct (Write w _) as [w1 [err|]]; cbn [and_then]; [done|].
  by rewrite write_each_app.
Qed.

(** X11.  Every run of the flowchart renderer writes the header, then the
    declarations, then one arrow per edge in insertion order.  Whatever
    order the declarations come in, there is one per module of the graph,
    the module at position [j] of the sorted sequence is declared as
    [N(j+1)], no two modules share an identifier, and the arrow of an edge
    names the identifiers declared for its two ends. *)
Theorem MermaidRender_structure (graph : DependencyGraph) (order : list (string * string)) :
  range_order (Mermaid_nodeIDs graph) order ->
  (forall buf, MermaidRender_ranged Buffer_Write order graph buf
               = (buf ++ Mermaid_lines order graph, None))
  /\ length order = length (GetAllModules graph)
  /\ (forall k id, (k, id) ∈ order
                   <-> exists j m, GetAllModules graph !! j = Some m
                                   /\ k = Module_String m /\ id = "N" +:+ itoa (S j))
  /\ (forall k1 k2 id, (k1, id) ∈ order -> (k2, id) ∈ order -> k1 = k2)
  /\ (forall dep, dep ∈ Dependencies graph ->
        exists i j mi mj,
          GetAllModules graph !! i = Some mi
          /\ Module_String mi = Module_String (From_ dep)
          /\ GetAllModules graph !! j = Some mj
          /\ Module_String mj = Module_String (To dep)
          /\ Mermaid_edge_line (Mermaid_nodeIDs graph) dep
             = "    " +:+ ("N" +:+ itoa (S i)) +:+ " --> " +:+ ("N" +:+ itoa (S j)) +:+ nl).
Proof.
  intros Hp.
  assert (Hmem : forall k id, (k, id) ∈ order
                   <-> exists j m, GetAllModules graph !! j = Some m
                                   /\ k = Module_String m /\ id = "N" +:+ itoa (S j)).
  { intros k id. rewrite (range_order_elem _ _ k id Hp). apply Mermaid_nodeIDs_lookup. }
  split; [intros buf; by rewrite MermaidRender_lines, write_each_Buffer|].
  split; [|split; [exact Hmem|split]].
  - rewrite <- (length_fmap fst order), <- (length_fmap Module_String (GetAllModules graph)).
    apply Permutation_length, NoDup_Permutation.
    + by eapply range_order_NoDup.
    + apply GetAllModules_NoDup.
    + intros k. split.
      * intros ([k' id] & -> & Hin)%list_elem_of_fmap. simpl.
        apply Hmem in Hin as (j & m & Hj & -> & _).
        apply list_elem_of_fmap_2. apply list_elem_of_lookup. by exists j.
      * intros (m & -> & Hm)%list_elem_of_fmap.
        apply list_elem_of_lookup in Hm as [j Hj].
        apply list_elem_of_fmap. exists (Module_String m, "N" +:+ itoa (S j)).
        split; [done|]. apply Hmem. by exists j, m.
  - intros k1 k2 id H1 H2.
    apply Hmem in H1 as (j1 & m1 & Hj1 & -> & Hid1).
    apply Hmem in H2 as (j2 & m2 & Hj2 & -> & Hid2).
    rewrite Hid1 in Hid2. injection Hid2 as Hid2. apply itoa_inj in Hid2.
    injection Hid2 as ->. congruence.
  - intros dep Hin. destruct (endpoints_in_graph graph dep Hin) as [Hf Ht].
    destruct (position_of_string graph _ Hf) as (i & mi & Hi & Hmi).
    destruct (position_of_string graph _ Ht) as (j & mj & Hj & Hmj).
    exists i, j, mi, mj. repeat split; try done.
    unfold Mermaid_edge_line. rewrite <- Hmi, <- Hmj.
    by rewrite (Mermaid_nodeIDs_sorted graph i mi Hi), (Mermaid_nodeIDs_sorted graph j mj Hj).
Qed.

Lemma MermaidRender_structure_witness :
  range_order (Mermaid_nodeIDs two_module_graph)
    (reverse (map_to_list (Mermaid_nodeIDs two_module_graph)))
  /\ length (reverse (map_to_list (Mermaid_nodeIDs two_module_graph)))
     = length (GetAllModules two_module_graph).
Proof.
  split; [apply range_order_reverse|].
  exact (proj1 (proj2 (MermaidRender_structure two_module_graph _ (range_order_reverse _)))).
Defined.

End MermaidMore.

Section NodeLinkText.
Import Renderer.

Lemma Join_concat (elems : list string) (sep : string) :
  Join elems sep = String.concat sep elems.
Proof.
  induction elems as [|e [|e' rest] IH]; [done|done|].
  change (Join (e :: e' :: rest) sep) with (e +:+ sep +:+ Join (e' :: rest) sep).
  by rewrite IH.
Qed.

Lemma uint_digits (d : Decimal.uint) (c : ascii) :
  c ∈ list_ascii_of_string (NilEmpty.string_of_uint d) ->
  c ∈ list_ascii_of_string "0123456789".
Proof.
  induction d; simpl; intros Hc;
    try (apply elem_of_cons in Hc as [->|Hc]; [|by apply IHd]);
    try by apply elem_of_nil in Hc.
  all: simpl; repeat constructor.
Qed.

Lemma itoa_digits (n : nat) (c : ascii) :
  c ∈ list_ascii_of_string (itoa n) -> c ∈ list_ascii_of_string "0123456789".
Proof.
  unfold itoa, NilZero.string_of_uint.
  destruct (Nat.to_uint n) eqn:Hd; try apply uint_digits.
  simpl. intros Hc. apply list_elem_of_singleton in Hc as ->. repeat constructor.
Qed.

Lemma bytes_inj (a b : string) : list_ascii_of_string a = list_ascii_of_string b -> a = b.
Proof.
  intros Heq. rewrite <- (string_of_list_ascii_of_string a), Heq.
  apply string_of_list_ascii_of_string.
Qed.

Lemma numeral_split (n m : nat) (x : ascii) (r1 r2 : list ascii) :
  x ∉ list_ascii_of_string "0123456789" ->
  list_ascii_of_string (itoa n) ++ x :: r1 = list_ascii_of_string (itoa m) ++ x :: r2 ->
  n = m /\ r1 = r2.
Proof.
  intros Hx Heq.
  destruct (first_split_unique x _ _ _ _ Heq) as [Hnm Hr].
  - intros Hin. by apply Hx, (itoa_digits n).
  - intros Hin. by apply Hx, (itoa_digits m).
  - split; [|done]. by apply itoa_inj, bytes_inj.
Qed.

Lemma not_a_digit (x : ascii) :
  Forall (fun d => x <> d) (list_ascii_of_string "0123456789") ->
  x ∉ list_ascii_of_string "0123456789".
Proof. intros Hall Hin. eapply Forall_forall in Hall; [|exact Hin]. done. Qed.

Lemma link_text_inj (i j i' j' : nat) :
  "{" +:+ dq +:+ "source" +:+ dq +:+ ": " +:+ itoa i' +:+ ", "
      +:+ dq +:+ "target" +:+ dq +:+ ": " +:+ itoa j' +:+ "}"
  = "{" +:+ dq +:+ "source" +:+ dq +:+ ": " +:+ itoa i +:+ ", "
      +:+ dq +:+ "target" +:+ dq +:+ ": " +:+ itoa j +:+ "}" ->
  i' = i /\ j' = j.
Proof.
  intros Heq. apply (f_equal list_ascii_of_string) in Heq.
  rewrite !bytes_app in Heq.
  repeat apply app_inv_head in Heq.
  cbn [list_ascii_of_string app dq] in Heq.
  apply numeral_split in Heq as [-> Heq];
    [|apply not_a_digit; simpl; repeat constructor; discriminate].
  injection Heq as Heq.
  apply numeral_split in Heq as [-> _];
    [|apply not_a_digit; simpl; repeat constructor; discriminate].
  done.
Qed.

(** C8.  The link fragment is the bracketed list, joined by a comma, a
    line break and eight spaces, of one entry per dependency edge in
    insertion order.  The entry of the k-th edge is the text that gives as
    source and as target, in decimal, the positions at which the sorted
    module sequence holds the canonical strings of the endpoints of the
    edge; the two positions can be read back from the text, and no other
    position holds these canonical strings.  The node fragment is the
    bracketed list, joined the same way, of one entry per canonical string of
    the graph (two for a graph with two modules); its entry at a position
    of the sorted module sequence gives that position as id and the escaped
    canonical string at that position as name, so that the entries at the
    two positions of a link carry the names of the endpoints of its edge. *)
Theorem links_resolve_to_nodes (graph : DependencyGraph) (k : nat) (dep : Dependency) :
  Dependencies graph !! k = Some dep ->
  exists (i j : nat) (mi mj : GoModule),
    let link := fun (source target : nat) =>
      "{" +:+ dq +:+ "source" +:+ dq +:+ ": " +:+ itoa source +:+ ", "
        +:+ dq +:+ "target" +:+ dq +:+ ": " +:+ itoa target +:+ "}" in
    let node := fun (id : nat) (name : string) (group : nat) =>
      "{" +:+ dq +:+ "id" +:+ dq +:+ ": " +:+ itoa id +:+ ", "
        +:+ dq +:+ "name" +:+ dq +:+ ": " +:+ dq +:+ name +:+ dq +:+ ", "
        +:+ dq +:+ "group" +:+ dq +:+ ": " +:+ itoa group +:+ "}" in
    let escaped := fun (s : string) =>
      ReplaceAll (ReplaceAll s dq (bs +:+ dq)) bs (bs +:+ bs) in
    let group := fun (s : string) =>
      if String.eqb s (Module_String (MainModule graph)) then 2 else 1 in
    let sep := "," +:+ nl +:+ "        " in
    generateLinks_entries graph !! k = Some (link i j)
    /\ GetAllModules graph !! i = Some mi
    /\ Module_String mi = Module_String (From_ dep)
    /\ GetAllModules graph !! j = Some mj
    /\ Module_String mj = Module_String (To dep)
    /\ generateNodes_entries graph !! i
       = Some (node i (escaped (Module_String (From_ dep)))
                 (group (Module_String (From_ dep))))
    /\ generateNodes_entries graph !! j
       = Some (node j (escaped (Module_String (To dep)))
                 (group (Module_String (To dep))))
    /\ (forall i' m', GetAllModules graph !! i' = Some m' ->
          Module_String m' = Module_String (From_ dep) -> i' = i)
    /\ (forall j' m', GetAllModules graph !! j' = Some m' ->
          Module_String m' = Module_String (To dep) -> j' = j)
    /\ length (generateLinks_entries graph) = length (Dependencies graph)
    /\ length (generateNodes_entries graph)
       = length (remove_dups (Module_String <$> graphModules graph))
    /\ (length (remove_dups (Module_String <$> graphModules graph)) = 2 ->
        length (generateNodes_entries graph) = 2)
    /\ (forall i' j', link i' j' = link i j -> i' = i /\ j' = j)
    /\ Nat.of_uint <$> NilZero.uint_of_string (itoa i) = Some i
    /\ Nat.of_uint <$> NilZero.uint_of_string (itoa j) = Some j
    /\ (forall n m, GetAllModules graph !! n = Some m ->
          generateNodes_entries graph !! n
          = Some (node n (escaped (Module_String m)) (group (Module_String m))))
    /\ generateLinks graph
       = "[" +:+ String.concat sep (generateLinks_entries graph) +:+ "]"
    /\ generateNodes graph
       = "[" +:+ String.concat sep (generateNodes_entries graph) +:+ "]".
Proof.
  intros Hk.
  assert (Hin : dep ∈ Dependencies graph) by (apply list_elem_of_lookup; eauto).
  destruct (endpoints_in_graph graph dep Hin) as [Hf Ht].
  destruct (position_of_string graph _ Hf) as (i & mi & Hi & Hmi).
  destruct (position_of_string graph _ Ht) as (j & mj & Hj & Hmj).
  assert (Hlen : length (generateNodes_entries graph)
                 = length (remove_dups (Module_String <$> graphModules graph))).
  { unfold generateNodes_entries. by rewrite length_imap, GetAllModules_length. }
  assert (Hnode : forall n m, GetAllModules graph !! n = Some m ->
            generateNodes_entries graph !! n = Some (HTML_node graph n m)).
  { intros n m Hn. unfold generateNodes_entries. by rewrite list_lookup_imap, Hn. }
  exists i, j, mi, mj. cbv zeta.
  split; [|split; [exact Hi|split; [exact Hmi|split; [exact Hj|split; [exact Hmj|]]]]].
  { unfold generateLinks_entries, link_indices. rewrite list_lookup_fmap, Hk. simpl.
    rewrite <- Hmi, <- Hmj.
    by rewrite (moduleToIndex_lookup graph i mi Hi), (moduleToIndex_lookup graph j mj Hj). }
  split; [rewrite <- Hmi; exact (Hnode i mi Hi)|].
  split; [rewrite <- Hmj; exact (Hnode j mj Hj)|].
  split.
  { intros i' m' Hi' Heq. eapply position_unique; [exact Hi'|exact Hi|congruence]. }
  split.
  { intros j' m' Hj' Heq. eapply position_unique; [exact Hj'|exact Hj|congruence]. }
  split; [unfold generateLinks_entries; by rewrite length_fmap|].
  split; [exact Hlen|].
  split; [intros H2; by rewrite Hlen|].
  split; [intros i' j'; apply link_text_inj|].
  split; [apply itoa_read|].
  split; [apply itoa_read|].
  split; [exact Hnode|].
  split.
  - unfold generateLinks. by rewrite Join_concat.
  - unfold generateNodes. by rewrite Join_concat.
Qed.

Lemma links_resolve_to_nodes_witness :
  Dependencies two_module_graph !! 0 = Some (mkDependency (mkModule "a" "") (mkModule "b" ""))
  /\ generateLinks_entries two_module_graph !! 0
     = Some ("{" +:+ dq +:+ "source" +:+ dq +:+ ": 0, "
               +:+ dq +:+ "target" +:+ dq +:+ ": 1}")
  /\ generateNodes_entries two_module_graph !! 0
     = Some ("{" +:+ dq +:+ "id" +:+ dq +:+ ": 0, " +:+ dq +:+ "name" +:+ dq +:+ ": "
               +:+ dq +:+ "a" +:+ dq +:+ ", " +:+ dq +:+ "group" +:+ dq +:+ ": 2}")
  /\ generateNodes_entries two_module_graph !! 1
     = Some ("{" +:+ dq +:+ "id" +:+ dq +:+ ": 1, " +:+ dq +:+ "name" +:+ dq +:+ ": "
               +:+ dq +:+ "b" +:+ dq +:+ ", " +:+ dq +:+ "group" +:+ dq +:+ ": 1}")
  /\ length (generateNodes_entries two_module_graph) = 2.
Proof.
  split; [reflexivity|].
  destruct (links_resolve_to_nodes two_module_graph 0
              (mkDependency (mkModule "a" "") (mkModule "b" "")) eq_refl)
    as (i & j & mi & mj & H).
  cbv zeta in H.
  destruct H as (Hlink & _ & _ & _ & _ & Hni & Hnj & Hi & Hj & _ & _ & H2 & _).
  assert (Hi0 : 0 = i) by (apply (Hi 0 (mkModule "a" "")); reflexivity).
  assert (Hj1 : 1 = j) by (apply (Hj 1 (mkModule "b" "")); reflexivity).
  destruct Hi0, Hj1.
  split; [exact Hlink|]. split; [exact Hni|]. split; [exact Hnj|].
  apply H2. reflexivity.
Defined.

(** The two fragments of the two-module graph, as they are spliced into the
    document. *)
Lemma two_module_fragments :
  generateNodes two_module_graph
  = "[{" +:+ dq +:+ "id" +:+ dq +:+ ": 0, " +:+ dq +:+ "name" +:+ dq +:+ ": "
      +:+ dq +:+ "a" +:+ dq +:+ ", " +:+ dq +:+ "group" +:+ dq +:+ ": 2},"
      +:+ nl +:+ "        {" +:+ dq +:+ "id" +:+ dq +:+ ": 1, " +:+ dq +:+ "name" +:+ dq +:+ ": "
      +:+ dq +:+ "b" +:+ dq +:+ ", " +:+ dq +:+ "group" +:+ dq +:+ ": 1}]"
  /\ generateLinks two_module_graph
     = "[{" +:+ dq +:+ "source" +:+ dq +:+ ": 0, " +:+ dq +:+ "target" +:+ dq +:+ ": 1}]".
Proof. split; vm_compute; reflexivity. Qed.

End NodeLinkText.


(** * Further properties of the plaintext renderer *)

Section PlaintextCache.
Import Renderer.
Context {W E : Type} (Write : W -> string -> W * option E).
Local Abbreviation St := (PState (W := W)).

Lemma tree_equiv_refl (t : gmap string (list string)) : tree_equiv t t.
Proof. intros k. reflexivity. Qed.

Lemma tree_equiv_sym (t1 t2 : gmap string (list string)) :
  tree_equiv t1 t2 -> tree_equiv t2 t1.
Proof. intros H k. symmetry. apply H. Qed.

Lemma tree_equiv_trans (t1 t2 t3 : gmap string (list string)) :
  tree_equiv t1 t2 -> tree_equiv t2 t3 -> tree_equiv t1 t3.
Proof. intros H1 H2 k. etrans; [apply H1|apply H2]. Qed.

Lemma tree_equiv_dom (t1 t2 : gmap string (list string)) :
  tree_equiv t1 t2 -> dom t1 = dom t2.
Proof.
  intros H. apply set_eq. intros k. rewrite !elem_of_dom.
  specialize (H k). destruct H; split; intros [? ?]; by eauto.
Qed.

Lemma Strings_perm (l1 l2 : list string) : l1 ≡ₚ l2 -> GoSort.Strings l1 = GoSort.Strings l2.
Proof.
  intros Hp. unfold GoSort.Strings. apply (sorted_by_unique String.ltb).
  - intros x y _ _. apply ltb_false_antisym.
  - apply Slice_sorted; [apply ltb_asym|apply ltb_trans].
  - apply Slice_sorted; [apply ltb_asym|apply ltb_trans].
  - by rewrite !Slice_perm.
Qed.

Lemma Strings_Permutation (l : list string) : GoSort.Strings l ≡ₚ l.
Proof. apply Slice_perm. Qed.

Lemma sort_entry_equiv (t : gmap string (list string)) (k : string) :
  tree_equiv (sort_entry t k).2 t.
Proof.
  unfold sort_entry. destruct (t !! k) as [l|] eqn:Hk; simpl; [|apply tree_equiv_refl].
  intros k'. destruct (decide (k = k')) as [<-|Hne].
  - rewrite lookup_insert_eq, Hk. constructor. apply Strings_Permutation.
  - rewrite lookup_insert_ne by done. reflexivity.
Qed.

Lemma sort_entry_children (t1 t2 : gmap string (list string)) (k : string) :
  tree_equiv t1 t2 -> (sort_entry t1 k).1 = (sort_entry t2 k).1.
Proof.
  intros H. unfold sort_entry. specialize (H k).
  destruct H as [l1 l2 Hp|]; simpl; [by apply Strings_perm|done].
Qed.

(** The graph [renderNode] hands to the children, in terms of the input. *)
Lemma sorted_graph_tree (g : DependencyGraph) (k : string) :
  tree (buildTree (mkGraph (MainModule (buildTree g)) (Dependencies (buildTree g))
                     (sort_entry (tree (buildTree g)) k).2))
  = (sort_entry (tree (buildTree g)) k).2.
Proof. by rewrite (sorted_graph_built g k). Qed.

Lemma range_children_lockstep
    (body1 body2 : nat -> string -> St -> option (St * option E)) :
  (forall i dep st1 st2, same_cache st1 st2 ->
     same_result (body1 i dep st1) (body2 i dep st2)) ->
  forall dependencies i st1 st2,
    same_cache st1 st2 ->
    same_result (range_children body1 i dependencies st1)
                (range_children body2 i dependencies st2).
Proof.
  intros Hbody. induction dependencies as [|dep rest IH]; intros i st1 st2 Hst; simpl.
  - by split.
  - specialize (Hbody i dep st1 st2 Hst). unfold same_result in Hbody.
    destruct (body1 i dep st1) as [[st1' e1]|], (body2 i dep st2) as [[st2' e2]|];
      try done.
    destruct Hbody as [Hst' <-]. destruct e1; [by split|]. by apply IH.
Qed.

(** Two runs of [renderNode] from states that differ only in the order of
    the cached lists write the same and visit the same. *)
Lemma renderNode_lockstep (fuel : nat) :
  forall nodeKey prefix isLast (st1 st2 : St),
    same_cache st1 st2 ->
    same_result (renderNode Write fuel nodeKey prefix isLast st1)
                (renderNode Write fuel nodeKey prefix isLast st2).
Proof.
  induction fuel as [|fuel IH];
    intros nodeKey prefix isLast [[g1 v1] w1] [[g2 v2] w2] (Hv & Hw & Ht); [done|].
  simpl in Hv, Hw, Ht. subst v2 w2. rewrite !renderNode_S.
  destruct (Write w1 _) as [w [err|]]; [by repeat split|].
  destruct (decide (nodeKey ∈ v1)); [by repeat split|].
  cbv zeta. rewrite (sort_entry_children _ _ nodeKey Ht).
  apply range_children_lockstep.
  - intros i dep st1 st2. apply IH.
  - split; [done|]. split; [done|]. simpl. rewrite !sorted_graph_tree.
    eapply tree_equiv_trans; [apply sort_entry_equiv|].
    eapply tree_equiv_trans; [exact Ht|]. apply tree_equiv_sym, sort_entry_equiv.
Qed.

(** [renderNode] changes the cache in the order of its lists only. *)
Lemma renderNode_keeps_cache (t : gmap string (list string)) (fuel : nat) :
  forall nodeKey prefix isLast (st : St) r,
    tree_equiv (tree (buildTree st.1.1)) t ->
    renderNode Write fuel nodeKey prefix isLast st = Some r ->
    tree_equiv (tree (buildTree r.1.1.1)) t.
Proof.
  induction fuel as [|fuel IH]; intros nodeKey prefix isLast [[g visited] w] r HP; [done|].
  rewrite renderNode_S.
  destruct (Write w _) as [w1 [err|]]; [by intros [= <-]|].
  destruct (decide (nodeKey ∈ visited)); [by intros [= <-]|].
  cbv zeta.
  apply (range_children_inv (fun st => tree_equiv (tree (buildTree st.1.1)) t)).
  - intros i dep st r'. apply IH.
  - simpl in *. rewrite sorted_graph_tree.
    eapply tree_equiv_trans; [apply sort_entry_equiv|exact HP].
Qed.

Lemma depth_bound_equiv (g1 g2 : DependencyGraph) :
  tree_equiv (tree (buildTree g1)) (tree (buildTree g2)) -> depth_bound g1 = depth_bound g2.
Proof.
  intros H. unfold depth_bound. f_equal.
  rewrite <- !size_dom. by rewrite (tree_equiv_dom _ _ H).
Qed.

(** Rendering two graphs with the same root whose caches differ only in the
    order of their lists. *)
Lemma PlaintextRender_same_cache (g1 g2 : DependencyGraph) (w : W) :
  MainModule g1 = MainModule g2 ->
  tree_equiv (tree (buildTree g1)) (tree (buildTree g2)) ->
  exists gA gB w' err,
    PlaintextRender Write g1 w = Some (gA, w', err)
    /\ PlaintextRender Write g2 w = Some (gB, w', err).
Proof.
  intros Hroot Ht.
  destruct (renderNode_total Write (depth_bound g1) (Module_String (MainModule g1))
              "" true (g1, ∅, w) (unvisited_empty g1))
    as ([[gA vA] wA] & eA & HA & _).
  unfold PlaintextRender, PlaintextRender_fuel.
  rewrite <- (depth_bound_equiv g1 g2 Ht), <- Hroot.
  pose proof (renderNode_lockstep (depth_bound g1) (Module_String (MainModule g1)) "" true
                (g1, ∅, w) (g2, ∅, w) (conj eq_refl (conj eq_refl Ht))) as Hlock.
  rewrite HA in *. unfold same_result in Hlock.
  destruct (renderNode Write (depth_bound g1) _ _ _ (g2, ∅, w))
    as [[[[gB vB] wB] eB]|]; [|done].
  destruct Hlock as [(_ & Hw & _) <-]. simpl in Hw. subst wB.
  by exists gA, gB, wA, eA.
Qed.

(** X12.  For every graph and writer, [PlaintextRenderer.Render] returns
    and leaves a graph with the same root and the same edges, whose cache
    differs from the cache before the call at most in the order of its
    lists; [GetAllModules] and [GetDirectDependencies] answer as before. *)
Theorem PlaintextRender_keeps_graph (g : DependencyGraph) (w : W) :
  exists g' w' err,
    PlaintextRender Write g w = Some (g', w', err)
    /\ MainModule g' = MainModule g
    /\ Dependencies g' = Dependencies g
    /\ tree_equiv (tree (buildTree g')) (tree (buildTree g))
    /\ GetAllModules g' = GetAllModules g
    /\ (forall module, GetDirectDependencies g' module = GetDirectDependencies g module)
    /\ (cache_consistent g -> cache_consistent g').
Proof.
  destruct (renderNode_total Write (depth_bound g) (Module_String (MainModule g))
              "" true (g, ∅, w) (unvisited_empty g))
    as ([[g' v'] w'] & err & Hrun & _).
  exists g', w', err.
  destruct (renderNode_frame Write (MainModule g) (Dependencies g) _ _ _ _ (g, ∅, w) _
              (conj eq_refl eq_refl) Hrun) as [Hroot Hdeps].
  pose proof (renderNode_keeps_cache (tree (buildTree g)) _ _ _ _ (g, ∅, w) _
                (tree_equiv_refl _) Hrun) as Hcache.
  simpl in Hroot, Hdeps, Hcache.
  split; [unfold PlaintextRender, PlaintextRender_fuel; by rewrite Hrun|].
  split; [exact Hroot|]. split; [exact Hdeps|]. split; [exact Hcache|]. split; [|split].
  - unfold GetAllModules, moduleSet. by rewrite Hroot, Hdeps.
  - intros module. unfold GetDirectDependencies. by rewrite Hdeps.
  - unfold cache_consistent. rewrite Hdeps. intros Hc.
    by eapply tree_equiv_trans.
Qed.

(** X13.  Plaintext rendering is repeatable: the graph left by one call of
    [Render], into any writer and whether or not that call failed, renders
    into a writer as the graph before that call does: the same writes and
    the same error. *)
Theorem PlaintextRender_repeatable (g : DependencyGraph) (w wB : W) :
  exists g' w' err gA gB wB' errB,
    PlaintextRender Write g w = Some (g', w', err)
    /\ PlaintextRender Write g wB = Some (gA, wB', errB)
    /\ PlaintextRender Write g' wB = Some (gB, wB', errB).
Proof.
  destruct (renderNode_total Write (depth_bound g) (Module_String (MainModule g))
              "" true (g, ∅, w) (unvisited_empty g))
    as ([[g' v'] w'] & err & Hrun & _).
  destruct (renderNode_frame Write (MainModule g) (Dependencies g) _ _ _ _ (g, ∅, w) _
              (conj eq_refl eq_refl) Hrun) as [Hroot _].
  pose proof (renderNode_keeps_cache (tree (buildTree g)) _ _ _ _ (g, ∅, w) _
                (tree_equiv_refl _) Hrun) as Hcache.
  simpl in Hroot, Hcache.
  destruct (PlaintextRender_same_cache g g' wB (eq_sym Hroot) (tree_equiv_sym _ _ Hcache))
    as (gA & gB & wB' & errB & HA & HB).
  exists g', w', err, gA, gB, wB', errB.
  split; [unfold PlaintextRender, PlaintextRender_fuel; by rewrite Hrun|]. by split.
Qed.

(** X14.  What the plaintext renderer writes is a function of the root and
    the edges alone: two graphs with the same root and the same edges whose
    caches agree with their edges render alike, whatever calls built them
    and however often they were rendered before. *)
Theorem PlaintextRender_of_root_and_edges (g1 g2 : DependencyGraph) (w : W) :
  MainModule g1 = MainModule g2 ->
  Dependencies g1 = Dependencies g2 ->
  cache_consistent g1 -> cache_consistent g2 ->
  exists gA gB w' err,
    PlaintextRender Write g1 w = Some (gA, w', err)
    /\ PlaintextRender Write g2 w = Some (gB, w', err).
Proof.
  intros Hroot Hdeps H1 H2. apply PlaintextRender_same_cache; [exact Hroot|].
  unfold cache_consistent in *. rewrite <- Hdeps in H2.
  eapply tree_equiv_trans; [exact H1|by apply tree_equiv_sym].
Qed.

End PlaintextCache.

Lemma cache_ok_consistent (g : DependencyGraph) : cache_ok g -> cache_consistent g.
Proof.
  intros Hok. unfold cache_consistent.
  change (tree (buildTree g)) with (GetTree g).1.
  rewrite (GetTree_cache_ok g Hok). apply tree_equiv_refl.
Qed.

Lemma PlaintextRender_of_root_and_edges_witness :
  cache_consistent unsorted_graph
  /\ cache_consistent (GetTree unsorted_graph).2
  /\ exists gA gB w' err,
       Renderer.PlaintextRender Renderer.Buffer_Write unsorted_graph [] = Some (gA, w', err)
       /\ Renderer.PlaintextRender Renderer.Buffer_Write (GetTree unsorted_graph).2 []
          = Some (gB, w', err).
Proof.
  assert (H1 : cache_consistent unsorted_graph)
    by (apply cache_ok_consistent; left; reflexivity).
  assert (H2 : cache_consistent (GetTree unsorted_graph).2)
    by (apply cache_ok_consistent; right; vm_compute; reflexivity).
  split; [exact H1|]. split; [exact H2|].
  exact (PlaintextRender_of_root_and_edges Renderer.Buffer_Write
           unsorted_graph (GetTree unsorted_graph).2 [] eq_refl eq_refl H1 H2).
Defined.

Section PlaintextTraversal.
Import Renderer.
Local Abbreviation BSt := (PState (W := list string)).
Context (deps : list Dependency).

Lemma children_perm (g : DependencyGraph) (k : string) :
  consistent_with deps g ->
  (sort_entry (tree (buildTree g)) k).1 ≡ₚ adjacency_list k deps.
Proof.
  intros [Hd Hc]. unfold cache_consistent in Hc. rewrite Hd in Hc.
  specialize (Hc k). rewrite adjacency_lookup in Hc. unfold sort_entry.
  destruct (tree (buildTree g) !! k) as [l|] eqn:Hk.
  - simpl. rewrite Strings_Permutation.
    destruct (edges_from k deps) as [|d ds]; by inv Hc.
  - simpl. unfold adjacency_list.
    destruct (edges_from k deps) as [|d ds]; [done|by inv Hc].
Qed.

Lemma children_edges (g : DependencyGraph) (k c : string) :
  consistent_with deps g ->
  c ∈ (sort_entry (tree (buildTree g)) k).1 <-> edge deps k c.
Proof.
  intros Hg. rewrite (children_perm g k Hg). unfold adjacency_list, edge, edges_from.
  rewrite list_elem_of_fmap. split.
  - intros (dep & -> & [Hk Hin]%list_elem_of_filter). by exists dep.
  - intros (dep & Hin & Hk & <-). exists dep. split; [done|].
    by apply list_elem_of_filter.
Qed.

Lemma sorted_graph_consistent (g : DependencyGraph) (k : string) :
  consistent_with deps g ->
  consistent_with deps (mkGraph (MainModule (buildTree g)) (Dependencies (buildTree g))
                     (sort_entry (tree (buildTree g)) k).2).
Proof.
  intros [Hd Hc]. split; [simpl; by rewrite Dependencies_buildTree|].
  unfold cache_consistent. rewrite sorted_graph_tree. simpl.
  rewrite Dependencies_buildTree.
  eapply tree_equiv_trans; [apply sort_entry_equiv|exact Hc].
Qed.

Lemma pending_mono (v v' : gset string) : v ⊆ v' -> pending deps v' <= pending deps v.
Proof.
  intros Hsub. unfold pending. induction deps as [|d ds IH]; [done|].
  rewrite !filter_cons.
  destruct (decide (Module_String (From_ d) ∉ v')) as [Hn'|Hn'];
    destruct (decide (Module_String (From_ d) ∉ v)) as [Hn|Hn]; simpl; try lia.
  exfalso. apply Hn. intros Hin. by apply Hn', Hsub.
Qed.

Lemma pending_visit (v : gset string) (k : string) :
  k ∉ v -> pending deps ({[k]} ∪ v) + length (edges_from k deps) = pending deps v.
Proof.
  intros Hk. unfold pending, edges_from. induction deps as [|d ds IH]; [done|].
  rewrite !filter_cons.
  destruct (decide (Module_String (From_ d) = k)) as [Heq|Hne].
  - rewrite decide_False, decide_True; [simpl; lia| |].
    + by rewrite Heq.
    + intros Hn. apply Hn. rewrite Heq. apply elem_of_union_l. by apply elem_of_singleton.
  - destruct (decide (Module_String (From_ d) ∉ v)) as [Hn|Hn].
    + rewrite decide_True; [simpl; lia|].
      intros [Hin%elem_of_singleton|Hin]%elem_of_union; [done|by apply Hn].
    + rewrite decide_False; [simpl; lia|].
      intros Hn'. apply Hn. intros Hin. by apply Hn', elem_of_union_r.
Qed.

Lemma pending_empty : pending deps ∅ = length deps.
Proof.
  unfold pending. induction deps as [|d ds IH]; [done|].
  rewrite filter_cons, decide_True by apply not_elem_of_empty. simpl. by rewrite IH.
Qed.

Lemma printed_mono (k : string) (l1 l2 : list string) :
  printed k l1 -> (forall x, x ∈ l1 -> x ∈ l2) -> printed k l2.
Proof. intros [pre Hin] Hsub. exists pre. by apply Hsub. Qed.

Lemma visits_refl (src : string) (v : gset string) : visits deps src v v [].
Proof.
  split; [done|]. split; [by intros k Hin Hout|].
  intros line Hin. by apply elem_of_nil in Hin.
Qed.

Lemma visits_trans (src : string) (v1 v2 v3 : gset string) (l1 l2 : list string) :
  visits deps src v1 v2 l1 -> visits deps src v2 v3 l2 ->
  visits deps src v1 v3 (l1 ++ l2).
Proof.
  intros (Hs1 & Hn1 & Hl1) (Hs2 & Hn2 & Hl2). split; [by etrans|]. split.
  - intros k Hin Hout. destruct (decide (k ∈ v2)) as [H2|H2].
    + destruct (Hn1 k H2 Hout) as [Hp Hc]. split.
      * apply (printed_mono k l1); [done|]. intros x Hx. apply elem_of_app. by left.
      * intros c Hc'. by apply Hs2, Hc.
    + destruct (Hn2 k Hin H2) as [Hp Hc]. split; [|done].
      apply (printed_mono k l2); [done|]. intros x Hx. apply elem_of_app. by right.
  - intros line [Hin|Hin]%elem_of_app; [by apply Hl1|by apply Hl2].
Qed.

(** A stretch below a successor of [src] is a stretch below [src]. *)
Lemma visits_up (src c : string) (v v' : gset string) (lines : list string) :
  edge deps src c -> visits deps c v v' lines -> visits deps src v v' lines.
Proof.
  intros He (Hs & Hn & Hl). split; [done|]. split; [done|].
  intros line Hin. destruct (Hl line Hin) as (pre & k & -> & Hr).
  exists pre, k. split; [done|]. by eapply rtc_l.
Qed.

Lemma visits_line (key pre : string) (v : gset string) :
  visits deps key v v [pre +:+ key +:+ nl].
Proof.
  split; [done|]. split; [by intros k Hin Hout|].
  intros line ->%list_elem_of_singleton. by exists pre, key.
Qed.

(** The loop over the children of [src], into a buffer. *)
Lemma range_children_Buffer (src : string)
    (body : nat -> string -> BSt -> option (BSt * option Empty_set)) :
  (forall i c g v buf r,
     consistent_with deps g -> body i c (g, v, buf) = Some r ->
     exists out,
       r.2 = None /\ consistent_with deps r.1.1.1 /\ c ∈ r.1.1.2
       /\ r.1.2 = buf ++ out
       /\ length out + pending deps r.1.1.2 <= 1 + pending deps v
       /\ visits deps c v r.1.1.2 out) ->
  forall cs i g v buf r,
    consistent_with deps g -> (forall c, c ∈ cs -> edge deps src c) ->
    range_children body i cs (g, v, buf) = Some r ->
    exists out,
      r.2 = None /\ consistent_with deps r.1.1.1 /\ (forall c, c ∈ cs -> c ∈ r.1.1.2)
      /\ r.1.2 = buf ++ out
      /\ length out + pending deps r.1.1.2 <= length cs + pending deps v
      /\ visits deps src v r.1.1.2 out.
Proof.
  intros Hbody. induction cs as [|c cs IH]; intros i g v buf r Hg Hcs; simpl.
  - intros [= <-]. exists []. cbn [fst snd length]. rewrite app_nil_r.
    split; [done|]. split; [done|]. split; [by intros c Hc%elem_of_nil|].
    split; [done|]. split; [lia|apply visits_refl].
  - destruct (body i c (g, v, buf)) as [[[[g1 v1] buf1] e1]|] eqn:Hb; [|done].
    destruct (Hbody _ _ _ _ _ _ Hg Hb) as (out1 & He1 & Hg1 & Hc1 & Hbuf1 & Hlen1 & Hv1).
    simpl in He1, Hg1, Hc1, Hbuf1, Hlen1, Hv1. subst e1 buf1.
    intros Hrest.
    destruct (IH (S i) g1 v1 (buf ++ out1) r Hg1
                (fun c' Hc' => Hcs c' (list_elem_of_further _ _ _ Hc')) Hrest)
      as (out2 & He2 & Hg2 & Hc2 & Hbuf2 & Hlen2 & Hv2).
    exists (out1 ++ out2). split; [done|]. split; [done|]. split; [|split; [|split]].
    + intros c' [->|Hc']%elem_of_cons; [|by apply Hc2].
      destruct Hv2 as [Hsub _]. by apply Hsub.
    + by rewrite Hbuf2, app_assoc.
    + rewrite length_app. simpl. lia.
    + eapply visits_trans; [|exact Hv2].
      apply (visits_up src c); [|exact Hv1]. apply Hcs. left.
Qed.

(** [renderNode] into a buffer, on a graph whose cache agrees with its
    edges: it does not fail, it writes the line of the node first, each
    further line uses up an edge that was pending, and the lines and the
    visited set follow the edges. *)
Lemma renderNode_Buffer (fuel : nat) :
  forall nodeKey prefix isLast g v buf r,
    consistent_with deps g ->
    renderNode Buffer_Write fuel nodeKey prefix isLast (g, v, buf) = Some r ->
    exists lines,
      r.2 = None /\ consistent_with deps r.1.1.1 /\ nodeKey ∈ r.1.1.2
      /\ r.1.2 = buf ++ (prefix +:+ connector_of prefix isLast +:+ nodeKey +:+ nl) :: lines
      /\ length lines + pending deps r.1.1.2 <= pending deps v
      /\ visits deps nodeKey v r.1.1.2
           ((prefix +:+ connector_of prefix isLast +:+ nodeKey +:+ nl) :: lines).
Proof.
  induction fuel as [|fuel IH]; intros nodeKey prefix isLast g v buf r Hg; [done|].
  rewrite renderNode_S. unfold Buffer_Write at 1.
  set (line0 := prefix +:+ connector_of prefix isLast +:+ nodeKey +:+ nl).
  assert (Hline0 : line0 = (prefix +:+ connector_of prefix isLast) +:+ nodeKey +:+ nl)
    by (unfold line0; by rewrite string_app_assoc).
  destruct (decide (nodeKey ∈ v)) as [Hin|Hout].
  - intros [= <-]. exists []. cbn [fst snd length].
    split; [done|]. split; [done|]. split; [done|]. split; [done|]. split; [lia|].
    rewrite Hline0. apply visits_line.
  - cbv zeta.
    set (cs := (sort_entry (tree (buildTree g)) nodeKey).1).
    set (g2 := mkGraph _ _ _). intros Hrun.
    assert (Hg2 : consistent_with deps g2) by (by apply sorted_graph_consistent).
    assert (Hcs : forall c, c ∈ cs <-> edge deps nodeKey c)
      by (intros c; by apply children_edges).
    assert (Hbody : forall i c g' v' buf' r',
              consistent_with deps g' ->
              renderNode Buffer_Write fuel c (newPrefix_of prefix isLast)
                (Nat.eqb i (length cs - 1)) (g', v', buf') = Some r' ->
              exists out,
                r'.2 = None /\ consistent_with deps r'.1.1.1 /\ c ∈ r'.1.1.2
                /\ r'.1.2 = buf' ++ out
                /\ length out + pending deps r'.1.1.2 <= 1 + pending deps v'
                /\ visits deps c v' r'.1.1.2 out).
    { intros i c g' v' buf' r' Hg' Hr'.
      destruct (IH _ _ _ _ _ _ _ Hg' Hr') as (lines & He & Hgr & Hc & Hb & Hl & Hv).
      eexists (_ :: lines). repeat (split; [eassumption|]). split; [simpl; lia|exact Hv]. }
    destruct (range_children_Buffer nodeKey _ Hbody
                cs 0 g2 ({[nodeKey]} ∪ v) (buf ++ [line0]) r Hg2
                (fun c Hc => proj1 (Hcs c) Hc) Hrun)
      as (out & He & Hgr & Hc & Hbuf & Hlen & (Hsub & Hnew & Hsound)).
    exists out. split; [done|]. split; [done|].
    assert (Hkey : nodeKey ∈ r.1.1.2).
    { apply Hsub, elem_of_union_l. by apply elem_of_singleton. }
    split; [exact Hkey|]. split; [by rewrite Hbuf, <- app_assoc|]. split.
    + assert (Hlen_cs : length cs = length (edges_from nodeKey deps)).
      { unfold cs. rewrite (children_perm g nodeKey Hg). unfold adjacency_list.
        by rewrite length_fmap. }
      pose proof (pending_visit v nodeKey Hout). lia.
    + split; [intros k Hk; by apply Hsub, elem_of_union_r|]. split.
      * intros k Hk Hnk. destruct (decide (k = nodeKey)) as [->|Hne].
        -- split; [exists (prefix +:+ connector_of prefix isLast); rewrite <- Hline0; left|].
           intros c Hc'. by apply Hc, Hcs.
        -- assert (Hk1 : k ∉ {[nodeKey]} ∪ v).
           { intros [Hk1%elem_of_singleton|Hk1]%elem_of_union; done. }
           destruct (Hnew k Hk Hk1) as [Hp Hsucc]. split; [|done].
           apply (printed_mono k out); [done|]. intros x Hx. by right.
      * intros line [->|Hline]%elem_of_cons; [|by apply Hsound].
        exists (prefix +:+ connector_of prefix isLast), nodeKey. by rewrite <- Hline0.
Qed.

End PlaintextTraversal.

Section PlaintextOutput.
Import Renderer.

Lemma PlaintextRender_Buffer (g : DependencyGraph) (buf : list string) :
  cache_consistent g ->
  exists g' v' lines,
    PlaintextRender Buffer_Write g buf
    = Some (g', buf ++ (Module_String (MainModule g) +:+ nl) :: lines, None)
    /\ length lines + pending (Dependencies g) v' <= length (Dependencies g)
    /\ Module_String (MainModule g) ∈ v'
    /\ visits (Dependencies g) (Module_String (MainModule g)) ∅ v'
         ((Module_String (MainModule g) +:+ nl) :: lines).
Proof.
  intros Hc.
  destruct (renderNode_total Buffer_Write (depth_bound g) (Module_String (MainModule g))
              "" true (g, ∅, buf) (unvisited_empty g))
    as ([[g' v'] buf'] & err & Hrun & _).
  destruct (renderNode_Buffer (Dependencies g) _ _ _ _ _ _ _ _ (conj eq_refl Hc) Hrun)
    as (lines & He & _ & Hroot & Hbuf & Hlen & Hv).
  simpl in He, Hroot, Hbuf, Hlen, Hv. subst err buf'.
  exists g', v', lines. rewrite pending_empty in Hlen.
  split; [unfold PlaintextRender, PlaintextRender_fuel; by rewrite Hrun|].
  split; [exact Hlen|]. split; [exact Hroot|exact Hv].
Qed.

(** X15.  Into a writer that does not fail, and on a graph whose cache
    agrees with its edges, the plaintext renderer returns no error; its
    first line is the canonical string of the root without prefix or
    connector, and it writes at most one further line per edge: a graph
    without edges renders as its root alone, and shared dependencies or
    cycles never multiply the output. *)
Theorem PlaintextRender_size (g : DependencyGraph) (buf : list string) :
  cache_consistent g ->
  exists g' lines,
    PlaintextRender Buffer_Write g buf
    = Some (g', buf ++ (Module_String (MainModule g) +:+ nl) :: lines, None)
    /\ length lines <= length (Dependencies g)
    /\ (Dependencies g = [] -> lines = []).
Proof.
  intros Hc. destruct (PlaintextRender_Buffer g buf Hc) as (g' & v' & lines & Hrun & Hlen & _).
  exists g', lines. split; [exact Hrun|]. split; [lia|].
  intros Hnil. rewrite Hnil in Hlen. simpl in Hlen.
  apply length_zero_iff_nil. lia.
Qed.

Lemma PlaintextRender_size_witness :
  cache_consistent createTestGraph
  /\ exists g' lines,
       PlaintextRender Buffer_Write createTestGraph []
       = Some (g', [] ++ ("github.com/example/main" +:+ nl) :: lines, None)
       /\ length lines <= 3.
Proof.
  assert (Hc : cache_consistent createTestGraph)
    by (apply cache_ok_consistent; left; reflexivity).
  split; [exact Hc|].
  destruct (PlaintextRender_size createTestGraph [] Hc) as (g' & lines & Hrun & Hlen & _).
  exists g', lines. split; [exact Hrun|exact Hlen].
Defined.

(** X16.  Into a writer that does not fail, and on a graph whose cache
    agrees with its edges, the plaintext tree shows the modules that can be
    reached from the root along the edges, and no others: every such module
    ends at least one line, and every line ends with such a module; a
    module that no path from the root leads to is left out. *)
Theorem PlaintextRender_reachable (g : DependencyGraph) (buf : list string) :
  cache_consistent g ->
  exists g' out,
    PlaintextRender Buffer_Write g buf = Some (g', buf ++ out, None)
    /\ (forall k, rtc (edge (Dependencies g)) (Module_String (MainModule g)) k ->
          printed k out)
    /\ (forall line, line ∈ out ->
          exists pre k, line = pre +:+ k +:+ nl
                        /\ rtc (edge (Dependencies g)) (Module_String (MainModule g)) k).
Proof.
  intros Hc.
  destruct (PlaintextRender_Buffer g buf Hc)
    as (g' & v' & lines & Hrun & _ & Hroot & (_ & Hnew & Hsound)).
  exists g', ((Module_String (MainModule g) +:+ nl) :: lines).
  split; [exact Hrun|]. split; [|exact Hsound].
  intros k Hreach.
  assert (Hk : k ∈ v').
  { revert k Hreach. apply (rtc_ind_r (fun y => y ∈ v')); [exact Hroot|].
    intros y z _ Hyz Hy. by apply (Hnew y Hy (not_elem_of_empty y)). }
  by apply (Hnew k Hk (not_elem_of_empty k)).
Qed.

Lemma PlaintextRender_reachable_witness :
  cache_consistent createTestGraph
  /\ exists g' out,
       PlaintextRender Buffer_Write createTestGraph [] = Some (g', [] ++ out, None)
       /\ printed "github.com/subdep@v1.0.0" out.
Proof.
  assert (Hc : cache_consistent createTestGraph)
    by (apply cache_ok_consistent; left; reflexivity).
  split; [exact Hc|].
  destruct (PlaintextRender_reachable createTestGraph [] Hc) as (g' & out & Hrun & Hall & _).
  exists g', out. split; [exact Hrun|]. apply Hall.
  apply (rtc_l _ _ "github.com/dep1@v1.0.0").
  - exists (mkDependency (mkModule "github.com/example/main" "")
                         (mkModule "github.com/dep1" "v1.0.0")).
    split; [left|by split].
  - apply rtc_once.
    exists (mkDependency (mkModule "github.com/dep1" "v1.0.0")
                         (mkModule "github.com/subdep" "v1.0.0")).
    split; [right; right; left|by split].
Defined.

End PlaintextOutput.

Section PlaintextErrors.
Import Renderer.
Context {W E : Type} (Write : W -> string -> W * option E).
Local Abbreviation LSt := (PState (W := W * list string)).

Lemma range_children_failed
    (body : nat -> string -> LSt -> option (LSt * option E)) :
  (forall i dep st r, body i dep st = Some r ->
     failed_last Write r.1.2 r.2 /\ exists more, r.1.2.2 = st.2.2 ++ more) ->
  forall dependencies i st r,
    range_children body i dependencies st = Some r ->
    failed_last Write r.1.2 r.2 /\ exists more, r.1.2.2 = st.2.2 ++ more.
Proof.
  intros Hbody. induction dependencies as [|dep rest IH]; intros i st r; simpl.
  - intros [= <-]. split; [done|]. exists []. by rewrite app_nil_r.
  - destruct (body i dep st) as [[st1 e1]|] eqn:Hb; [|done].
    destruct (Hbody _ _ _ _ Hb) as [Hf [more1 Hm1]]. simpl in Hf, Hm1.
    destruct e1 as [e1|].
    + intros [= <-]. split; [done|]. by exists more1.
    + intros Hrest. destruct (IH _ _ _ Hrest) as [Hf2 [more2 Hm2]].
      split; [done|]. exists (more1 ++ more2). by rewrite Hm2, Hm1, app_assoc.
Qed.

Lemma renderNode_failed (fuel : nat) :
  forall nodeKey prefix isLast (st : LSt) r,
    renderNode (Logged_Write Write) fuel nodeKey prefix isLast st = Some r ->
    failed_last Write r.1.2 r.2 /\ exists more, r.1.2.2 = st.2.2 ++ more.
Proof.
  induction fuel as [|fuel IH]; intros nodeKey prefix isLast [[g v] [w log]] r; [done|].
  rewrite renderNode_S. unfold Logged_Write at 1. cbn [fst snd].
  destruct (Write w _) as [w1 [err|]] eqn:Hw; cbn [fst snd].
  - intros [= <-]. split; [|by eexists].
    eexists log, _, w. split; [reflexivity|exact Hw].
  - destruct (decide (nodeKey ∈ v)).
    + intros [= <-]. split; [done|]. by eexists.
    + cbv zeta. intros Hrun.
      destruct (range_children_failed _ (fun i dep st r' => IH dep _ _ st r') _ _ _ _ Hrun)
        as [Hf [more Hm]].
      split; [done|]. simpl in Hm. eexists. by rewrite Hm, <- app_assoc.
Qed.

(** X17.  Error behaviour of the plaintext renderer, for every graph and
    writer: [Render] returns, and when it returns an error this is the
    error of the last write it made; the traversal hands nothing more to
    the writer after a failed write. *)
Theorem PlaintextRender_stops_at_error (g : DependencyGraph) (w : W) :
  exists g' w' log err,
    PlaintextRender (Logged_Write Write) g (w, []) = Some (g', (w', log), err)
    /\ (forall e, err = Some e ->
          exists front text wi, log = front ++ [text] /\ Write wi text = (w', Some e)).
Proof.
  destruct (renderNode_total (Logged_Write Write) (depth_bound g)
              (Module_String (MainModule g)) "" true (g, ∅, (w, []))
              (unvisited_empty g))
    as ([[g' v'] [w' log]] & err & Hrun & _).
  exists g', w', log, err.
  split; [unfold PlaintextRender, PlaintextRender_fuel; by rewrite Hrun|].
  intros e ->. by destruct (renderNode_failed _ _ _ _ _ _ Hrun) as [Hf _].
Qed.

End PlaintextErrors.

(** * Further properties of the node-link serializer *)

Section NodeGroups.
Import Renderer.

Lemma HTML_node_group (graph : DependencyGraph) (i : nat) (m : GoModule) :
  in_root_group (HTML_node graph i m)
  <-> Module_String m = Module_String (MainModule graph).
Proof.
  unfold HTML_node, in_root_group.
  destruct (String.eqb_spec (Module_String m) (Module_String (MainModule graph)))
    as [Heq|Hne].
  - split; [done|]. intros _. change (itoa 2) with "2".
    exists ("{" +:+ dq +:+ "id" +:+ dq +:+ ": " +:+ itoa i +:+ ", "
              +:+ dq +:+ "name" +:+ dq +:+ ": " +:+ dq
              +:+ ReplaceAll (ReplaceAll (Module_String m) dq (bs +:+ dq)) bs (bs +:+ bs)
              +:+ dq +:+ ", " +:+ dq +:+ "group" +:+ dq).
    rewrite !string_app_assoc. reflexivity.
  - split; [|done]. intros [front H]. exfalso. change (itoa 1) with "1" in H.
    apply (f_equal (fun s => rev (list_ascii_of_string s))) in H.
    rewrite !bytes_app, !rev_app_distr in H. simpl in H. discriminate H.
Qed.

(** X18.  In the node fragment the entry at each position of the sorted
    module sequence is in group 2 exactly when its module has the canonical
    string of the root, and this is the case at exactly one position. *)
Theorem generateNodes_groups (graph : DependencyGraph) :
  (forall i m, GetAllModules graph !! i = Some m ->
     exists entry, generateNodes_entries graph !! i = Some entry
                   /\ (in_root_group entry
                       <-> Module_String m = Module_String (MainModule graph)))
  /\ (exists i m, GetAllModules graph !! i = Some m
                  /\ Module_String m = Module_String (MainModule graph)
                  /\ forall j m', GetAllModules graph !! j = Some m' ->
                        Module_String m' = Module_String (MainModule graph) -> j = i).
Proof.
  split.
  - intros i m Hi. exists (HTML_node graph i m). split; [|apply HTML_node_group].
    unfold generateNodes_entries. by rewrite list_lookup_imap, Hi.
  - assert (Hroot : MainModule graph ∈ graphModules graph) by left.
    destruct (position_of_string graph _ Hroot) as (i & m & Hi & Hm).
    exists i, m. split; [done|]. split; [done|].
    intros j m' Hj Hm'. eapply position_unique; [exact Hj|exact Hi|congruence].
Qed.

End NodeGroups.
